(** * Skribidi MSDF glyph rasterizer ([src/skb_msdf.cpp])

    A shallow embedding of the shape builder (the five HarfBuzz draw
    callbacks) and of [skb_rasterizer_draw_msdf_glyph], followed by the
    properties of the driver: quantization, the empty-glyph fill, the
    precondition check, row stride, the projection and the distance range.

    msdfgen (shape normalization, edge coloring, field generation) and the
    HarfBuzz outline extraction are external: they are variables of the
    sections below, and every statement holds for whatever they compute. *)

From Stdlib Require Import ZArith QArith Qround Lia Lqa Bool List.
From Stdlib Require Import Floats.SpecFloat.
From stdpp Require Import base list list_numbers.

Local Open Scope Z_scope.

(** ** Arithmetic of [float] and [double]

    The source computes with C [float] (binary32) and [double] (binary64).
    The operations it uses are collected in one interface, so that the same
    embedding runs on IEEE-754 numbers ([IEEE] below) and on exact rationals
    ([Exact] below), the reading in which the comments of the source derive
    the projection and the distance range. *)
Class FloatArith (F32 F64 : Type) := {
  (* m * 2^e as a [float] literal, e.g. [0.5f] is [f32_lit 1 (-1)] *)
  f32_lit : Z -> Z -> F32;
  f32_add : F32 -> F32 -> F32;
  f32_mul : F32 -> F32 -> F32;
  f32_neg : F32 -> F32;
  (* [a < b] on [float] *)
  f32_lt : F32 -> F32 -> bool;
  (* the cast [(uint8_t)f] *)
  f32_to_uint8 : F32 -> Z;
  (* the conversion [(double)f], also implicit promotion *)
  f64_of_f32 : F32 -> F64;
  f64_lit : Z -> Z -> F64;
  f64_add : F64 -> F64 -> F64;
  f64_mul : F64 -> F64 -> F64;
  f64_div : F64 -> F64 -> F64;
  f64_neg : F64 -> F64;
  f64_lt : F64 -> F64 -> bool
}.

(** *** IEEE-754 instance: binary32 and binary64 of [SpecFloat]. *)
Module IEEE.

Definition prec32 : Z := 24.
Definition emax32 : Z := 128.
Definition prec64 : Z := 53.
Definition emax64 : Z := 1024.

Definition float := spec_float.
Definition double := spec_float.

Definition lit32 (m e : Z) : float := binary_normalize prec32 emax32 m e false.
Definition lit64 (m e : Z) : double := binary_normalize prec64 emax64 m e false.

(** Every binary32 number is a binary64 number: the conversion only
    renormalizes the mantissa. *)
Definition to_double (x : float) : double :=
  match x with
  | S754_finite s m e => binary_normalize prec64 emax64 (cond_Zopp s (Zpos m)) e s
  | _ => x
  end.

(** Integer part, rounded toward zero. *)
Definition trunc (x : spec_float) : Z :=
  match x with
  | S754_finite s m e => cond_Zopp s (Z.shiftl (Zpos m) e)
  | _ => 0
  end.

(** [(uint8_t)x]: the integer part of [x]. C leaves the cast undefined
    when the integer part is outside [0, 255] (and for NaN and the
    infinities); the usual wrap to 8 bits is written out here. *)
Definition to_uint8 (x : float) : Z := trunc x mod 256.

#[global] Instance arith : FloatArith float double := {|
  f32_lit := lit32;
  f32_add := SFadd prec32 emax32;
  f32_mul := SFmul prec32 emax32;
  f32_neg := SFopp;
  f32_lt := SFltb;
  f32_to_uint8 := to_uint8;
  f64_of_f32 := to_double;
  f64_lit := lit64;
  f64_add := SFadd prec64 emax64;
  f64_mul := SFmul prec64 emax64;
  f64_div := SFdiv prec64 emax64;
  f64_neg := SFopp;
  f64_lt := SFltb
|}.

End IEEE.

(** *** Exact instance: rationals, no rounding. *)
Module Exact.

Definition lit (m e : Z) : Q := inject_Z m * Qpower 2 e.

Definition ltb (a b : Q) : bool := negb (Qle_bool b a).

(** Integer part, rounded toward zero. *)
Definition trunc (q : Q) : Z := Z.quot (Qnum q) (Zpos (Qden q)).

(** [(uint8_t)q]: integer part toward zero, wrapped to 8 bits. *)
Definition to_uint8 (q : Q) : Z := trunc q mod 256.

#[global] Instance arith : FloatArith Q Q := {|
  f32_lit := lit;
  f32_add := Qplus;
  f32_mul := Qmult;
  f32_neg := Qopp;
  f32_lt := ltb;
  f32_to_uint8 := to_uint8;
  f64_of_f32 := fun q => q;
  f64_lit := lit;
  f64_add := Qplus;
  f64_mul := Qmult;
  f64_div := Qdiv;
  f64_neg := Qopp;
  f64_lt := ltb
|}.

End Exact.

(** ** Machine integers

    [int] is 32 bits wide and [size_t] 64 bits wide; results that leave the
    range wrap around. *)
Definition INT_MAX : Z := 2^31 - 1.
Definition int_wrap (z : Z) : Z := (z + 2^31) mod 2^32 - 2^31.
Definition int_mul (a b : Z) : Z := int_wrap (a * b).
Definition size_t_of_int (z : Z) : Z := z mod 2^64.

(** ** Memory reached through [target->buffer]

    The byte at [buffer + a] is [m a]; the function never reads it, it only
    stores bytes ([dst[i] = b]) and calls [memset]. *)
Definition mem := Z -> Z.

Definition store (m : mem) (a b : Z) : mem :=
  fun a' => if Z.eqb a' a then b else m a'.

(** [memset(buffer, c, n)] with [n] a [size_t]. *)
Definition memset (m : mem) (c n : Z) : mem :=
  fun a => if (0 <=? a) && (a <? n) then c else m a.

(** Modelled from the spec: [skb_image_t], declared in skb_rasterizer.h,
    which is not part of src/. The fields are the ones the function reads:
    [width], [height] and [stride_bytes] as [int], [bpp], and the byte
    buffer. *)
Record skb_image_t := {
  buffer : mem;
  width : Z;
  height : Z;
  stride_bytes : Z;
  bpp : Z
}.

Section Model.

Context {F32 F64 : Type} {FA : FloatArith F32 F64}.

(** *** msdfgen and HarfBuzz data *)

(** [msdfgen::Vector2], also [msdfgen::Point2]: two [double]s. *)
Record Vector2 := { vx : F64; vy : F64 }.
Definition Point2 := Vector2.

(** [msdfgen::EdgeHolder], by the constructor the callbacks use: two,
    three or four points. *)
Inductive EdgeHolder :=
| LinearSegment (p0 p1 : Point2)
| QuadraticSegment (p0 p1 p2 : Point2)
| CubicSegment (p0 p1 p2 p3 : Point2).

(** [msdfgen::Contour]: its vector [edges]. *)
Definition Contour := list EdgeHolder.

(** [msdfgen::Shape]: its vector [contours]. *)
Record Shape := { contours : list Contour }.

(** [msdfgen::Projection(scale, translate)]. *)
Record Projection := { proj_scale : Vector2; proj_translate : Vector2 }.

(** [msdfgen::Range(width)]. *)
Record Range := { range_width : F64 }.

(** [msdfgen::Bitmap<float, 3>]: [msdf(x, y)[c]]. *)
Definition Bitmap := Z -> Z -> Z -> F32.

(** The events HarfBuzz sends to the five draw callbacks; the
    coordinates are [float]s in font units. *)
Inductive PathCommand :=
| MoveTo (to_x to_y : F32)
| LineTo (to_x to_y : F32)
| QuadTo (c1x c1y to_x to_y : F32)
| CubicTo (c1x c1y c2x c2y to_x to_y : F32)
| ClosePath.

(** *** Shape builder *)

(** [struct MsdfBuildContext]. [shape] is the shape pointed to;
    [contour] is null ([None]) or points to an element of
    [shape->contours], given by its index. *)
Record MsdfBuildContext := {
  shape : Shape;
  contour : option nat;
  lastPoint : Point2
}.

(** [msdfgen::Point2(x, y)] from two [float]s. *)
Definition point2 (x y : F32) : Point2 :=
  {| vx := f64_of_f32 x; vy := f64_of_f32 y |}.

(** [shape->addContour()]: push an empty contour; the reference returned
    is the new last element. *)
Definition addContour (s : Shape) : Shape * nat :=
  ({| contours := contours s ++ [[]] |}, length (contours s)).

(** [contour->addEdge(e)] through a pointer to the contour at index [i]. *)
Definition addEdge (s : Shape) (i : nat) (e : EdgeHolder) : Shape :=
  {| contours := alter (fun c => c ++ [e]) i (contours s) |}.

Definition msdf_move_to (ctx : MsdfBuildContext) (to_x to_y : F32) : MsdfBuildContext :=
  let '(s, i) := addContour (shape ctx) in
  {| shape := s; contour := Some i; lastPoint := point2 to_x to_y |}.

Definition msdf_line_to (ctx : MsdfBuildContext) (to_x to_y : F32) : MsdfBuildContext :=
  match contour ctx with
  | None => ctx
  | Some i =>
      let to := point2 to_x to_y in
      {| shape := addEdge (shape ctx) i (LinearSegment (lastPoint ctx) to);
         contour := Some i;
         lastPoint := to |}
  end.

Definition msdf_quadratic_to (ctx : MsdfBuildContext) (c1x c1y to_x to_y : F32)
  : MsdfBuildContext :=
  match contour ctx with
  | None => ctx
  | Some i =>
      let c1 := point2 c1x c1y in
      let to := point2 to_x to_y in
      {| shape := addEdge (shape ctx) i (QuadraticSegment (lastPoint ctx) c1 to);
         contour := Some i;
         lastPoint := to |}
  end.

Definition msdf_cubic_to (ctx : MsdfBuildContext) (c1x c1y c2x c2y to_x to_y : F32)
  : MsdfBuildContext :=
  match contour ctx with
  | None => ctx
  | Some i =>
      let c1 := point2 c1x c1y in
      let c2 := point2 c2x c2y in
      let to := point2 to_x to_y in
      {| shape := addEdge (shape ctx) i (CubicSegment (lastPoint ctx) c1 c2 to);
         contour := Some i;
         lastPoint := to |}
  end.

Definition msdf_close_path (ctx : MsdfBuildContext) : MsdfBuildContext := ctx.

(** One event, sent to the callback registered for it. *)
Definition draw_event (ctx : MsdfBuildContext) (c : PathCommand) : MsdfBuildContext :=
  match c with
  | MoveTo x y => msdf_move_to ctx x y
  | LineTo x y => msdf_line_to ctx x y
  | QuadTo c1x c1y x y => msdf_quadratic_to ctx c1x c1y x y
  | CubicTo c1x c1y c2x c2y x y => msdf_cubic_to ctx c1x c1y c2x c2y x y
  | ClosePath => msdf_close_path ctx
  end.

(** The context the rasterizer starts from: an empty shape, [contour]
    null; [lastPoint] is default-constructed. *)
Definition initial_context : MsdfBuildContext :=
  {| shape := {| contours := [] |};
     contour := None;
     lastPoint := {| vx := f64_lit 0 0; vy := f64_lit 0 0 |} |}.

(** *** Rasterizer *)

(** The library calls made on the shape, in order, with the arguments the
    source passes. The second argument of [edgeColoringSimple] is the one
    written in the call, [3.0]; any parameter the call leaves out takes the
    default of msdfgen's declaration. *)
Inductive msdfgen_call :=
| call_normalize (s : Shape)
| call_edgeColoringSimple (s : Shape) (arg : F64)
| call_generateMSDF (w h : Z) (s : Shape) (p : Projection) (r : Range).

(** What a call leaves behind: the value returned, the target image and
    the library calls made. *)
Record outcome := {
  returned : bool;
  target_after : option skb_image_t;
  library_calls : list msdfgen_call
}.

(** Modelled from the spec: the maximum of two [float]s, by one
    comparison (skb_common.h is not part of src/). *)
Definition skb_maxf (a b : F32) : F32 := if f32_lt b a then a else b.

(** Modelled from the spec: the minimum of two [float]s, by one
    comparison (skb_common.h is not part of src/). *)
Definition skb_minf (a b : F32) : F32 := if f32_lt a b then a else b.

(** Modelled from the spec: [skb_clampf] of skb_common.h, which is not
    part of src/: the clamp of [a] to the interval from [mn] to [mx]. *)
Definition skb_clampf (a mn mx : F32) : F32 := skb_minf (skb_maxf a mn) mx.

(** One channel of a pixel: [(uint8_t)(skb_clampf(0.5f + r * 0.5f, 0.0f,
    1.0f) * 255.0f + 0.5f)]. *)
Definition quantize (r : F32) : Z :=
  let nr := f32_add (f32_lit 1 (-1)) (f32_mul r (f32_lit 1 (-1))) in
  f32_to_uint8
    (f32_add (f32_mul (skb_clampf nr (f32_lit 0 0) (f32_lit 1 0)) (f32_lit 255 0))
       (f32_lit 1 (-1))).

(** [dst = target->buffer + y * row_stride + x * 3]. *)
Definition pixel_offset (row_stride y x : Z) : Z :=
  int_mul y row_stride + int_mul x 3.

(** Body of the inner loop. *)
Definition write_pixel (msdf : Bitmap) (row_stride y : Z) (m : mem) (x : Z) : mem :=
  let dst := pixel_offset row_stride y x in
  let r := msdf x y 0 in
  let g := msdf x y 1 in
  let b := msdf x y 2 in
  let m := store m (dst + 0) (quantize r) in
  let m := store m (dst + 1) (quantize g) in
  store m (dst + 2) (quantize b).

(** Body of the outer loop: [for (int x = 0; x < target->width; x++)]. *)
Definition write_row (msdf : Bitmap) (row_stride w : Z) (m : mem) (y : Z) : mem :=
  fold_left (write_pixel msdf row_stride y) (seqZ 0 w) m.

(** [for (int y = 0; y < target->height; y++)]. *)
Definition copy_to_target (msdf : Bitmap) (row_stride w h : Z) (m : mem) : mem :=
  fold_left (write_row msdf row_stride w) (seqZ 0 h) m.

(** Modelled from the spec: [skb_font_t], declared in
    skb_font_collection_internal.h, which is not part of src/. The fields
    are the ones the function reads: the HarfBuzz font and the [float]
    [upem_scale]. *)
Context {hb_font_t : Type}.
Record skb_font_t := { hb_font : hb_font_t; upem_scale : F32 }.

(** The two arguments the function does not use. *)
Context {skb_rasterizer_t skb_temp_alloc_t : Type}.

(** External code: the outline HarfBuzz emits for a glyph, and the three
    msdfgen entry points. *)
Variable glyph_outline : hb_font_t -> Z -> list PathCommand.
Variable normalize : Shape -> Shape.
Variable edgeColoringSimple : Shape -> F64 -> Shape.
Variable generateMSDF : Z -> Z -> Shape -> Projection -> Range -> Bitmap.

(** [hb_font_draw_glyph(font, glyph, draw_funcs, &ctx)] with the five
    callbacks registered. *)
Definition hb_font_draw_glyph (f : hb_font_t) (glyph_id : Z) (ctx : MsdfBuildContext)
  : MsdfBuildContext :=
  fold_left draw_event (glyph_outline f glyph_id) ctx.

(** [scale = (double)(font_size * font->upem_scale)]. *)
Definition pixel_scale (font_size upem : F32) : F64 :=
  f64_of_f32 (f32_mul font_size upem).

(** [Projection(Vector2(scale, -scale),
                Vector2(offset_x / scale, -offset_y / scale))]. *)
Definition make_projection (scale : F64) (offset_x offset_y : F32) : Projection :=
  {| proj_scale := {| vx := scale; vy := f64_neg scale |};
     proj_translate :=
       {| vx := f64_div (f64_of_f32 offset_x) scale;
          vy := f64_div (f64_of_f32 (f32_neg offset_y)) scale |} |}.

Definition pxRange : F64 := f64_lit 4 0.

(** [Range(pxRange / scale)]. *)
Definition make_range (scale : F64) : Range :=
  {| range_width := f64_div pxRange scale |}.

(** [row_stride]. *)
Definition row_stride_of (t : skb_image_t) : Z :=
  if 0 <? stride_bytes t then stride_bytes t else int_mul (width t) 3.

Definition skb_rasterizer_draw_msdf_glyph
    (rasterizer : option skb_rasterizer_t) (temp_alloc : option skb_temp_alloc_t)
    (glyph_id : Z) (font : option skb_font_t)
    (font_size offset_x offset_y : F32) (target : option skb_image_t) : outcome :=
  match font, target with
  | Some f, Some t =>
      if negb (bpp t =? 3) then
        {| returned := false; target_after := target; library_calls := [] |}
      else
        let ctx := hb_font_draw_glyph (hb_font f) glyph_id initial_context in
        let shape0 := shape ctx in
        match contours shape0 with
        | [] =>
            let n := size_t_of_int (int_mul (int_mul (width t) (height t)) 3) in
            {| returned := true;
               target_after :=
                 Some {| buffer := memset (buffer t) 0 n;
                         width := width t; height := height t;
                         stride_bytes := stride_bytes t; bpp := bpp t |};
               library_calls := [] |}
        | _ :: _ =>
            let shape1 := normalize shape0 in
            let shape2 := edgeColoringSimple shape1 (f64_lit 3 0) in
            let scale := pixel_scale font_size (upem_scale f) in
            let projection := make_projection scale offset_x offset_y in
            let range := make_range scale in
            let msdf := generateMSDF (width t) (height t) shape2 projection range in
            let row_stride := row_stride_of t in
            {| returned := true;
               target_after :=
                 Some {| buffer :=
                           copy_to_target msdf row_stride (width t) (height t) (buffer t);
                         width := width t; height := height t;
                         stride_bytes := stride_bytes t; bpp := bpp t |};
               library_calls :=
                 [ call_normalize shape0;
                   call_edgeColoringSimple shape1 (f64_lit 3 0);
                   call_generateMSDF (width t) (height t) shape2 projection range ] |}
        end
  | _, _ => {| returned := false; target_after := target; library_calls := [] |}
  end.

End Model.

Arguments Vector2 : clear implicits.
Arguments Point2 : clear implicits.
Arguments EdgeHolder : clear implicits.
Arguments Contour : clear implicits.
Arguments Shape : clear implicits.
Arguments Projection : clear implicits.
Arguments Range : clear implicits.
Arguments Bitmap : clear implicits.
Arguments PathCommand : clear implicits.
Arguments MsdfBuildContext : clear implicits.
Arguments msdfgen_call : clear implicits.
Arguments outcome : clear implicits.
Arguments skb_font_t : clear implicits.

(** ** Auxiliary definitions for the statements *)

Definition is_MoveTo {F32 : Type} (c : PathCommand F32) : bool :=
  match c with MoveTo _ _ => true | _ => false end.

(** A line, quadratic or cubic command. *)
Definition is_draw {F32 : Type} (c : PathCommand F32) : bool :=
  match c with
  | LineTo _ _ | QuadTo _ _ _ _ | CubicTo _ _ _ _ _ _ => true
  | _ => false
  end.

(** The shape built from a command stream, starting from the context the
    rasterizer sets up. *)
Definition build_shape {F32 F64 : Type} {FA : FloatArith F32 F64}
    (cmds : list (PathCommand F32)) : MsdfBuildContext F64 :=
  fold_left draw_event cmds initial_context.

(** The build context points to the last contour of its shape, or to none
    while the shape has none. *)
Definition context_wf {F64 : Type} (ctx : MsdfBuildContext F64) : Prop :=
  match contour ctx with
  | None => contours (shape ctx) = []
  | Some i => S i = length (contours (shape ctx))
  end.

(** The value last written to address [a] by a loop over [l] whose
    iteration [i] writes [v] to [a] when [P i a = Some v] and leaves [a]
    alone when [P i a = None]. *)
Definition last_hit {A : Type} (P : A -> Z -> option Z) (l : list A) (a : Z) : option Z :=
  fold_left (fun acc i => match P i a with Some v => Some v | None => acc end) l None.

(** What one iteration of the inner loop writes. *)
Definition pixel_writes {F32 F64 : Type} {FA : FloatArith F32 F64}
    (msdf : Bitmap F32) (row_stride y x a : Z) : option Z :=
  let dst := pixel_offset row_stride y x in
  if a =? dst + 2 then Some (quantize (msdf x y 2))
  else if a =? dst + 1 then Some (quantize (msdf x y 1))
  else if a =? dst + 0 then Some (quantize (msdf x y 0))
  else None.

Definition row_writes {F32 F64 : Type} {FA : FloatArith F32 F64}
    (msdf : Bitmap F32) (row_stride w y a : Z) : option Z :=
  last_hit (pixel_writes msdf row_stride y) (seqZ 0 w) a.

Definition image_writes {F32 F64 : Type} {FA : FloatArith F32 F64}
    (msdf : Bitmap F32) (row_stride w h a : Z) : option Z :=
  last_hit (row_writes msdf row_stride w) (seqZ 0 h) a.

(** The rows of the target do not overlap and no offset leaves the range
    of [int]. *)
Definition rows_disjoint (t : skb_image_t) : Prop :=
  3 * width t <= row_stride_of t /\ height t * row_stride_of t <= INT_MAX.

(** The shape the rasterizer builds for a glyph. *)
Definition glyph_shape {F32 F64 : Type} {FA : FloatArith F32 F64} {hb_font_t : Type}
    (glyph_outline : hb_font_t -> Z -> list (PathCommand F32))
    (f : skb_font_t F32 hb_font_t) (glyph_id : Z) : Shape F64 :=
  shape (hb_font_draw_glyph glyph_outline (hb_font f) glyph_id initial_context).

(** The raw samples: the bitmap [generateMSDF] fills for a glyph with at
    least one contour. *)
Definition glyph_field {F32 F64 : Type} {FA : FloatArith F32 F64} {hb_font_t : Type}
    (glyph_outline : hb_font_t -> Z -> list (PathCommand F32))
    (normalize : Shape F64 -> Shape F64)
    (edgeColoringSimple : Shape F64 -> F64 -> Shape F64)
    (generateMSDF : Z -> Z -> Shape F64 -> Projection F64 -> Range F64 -> Bitmap F32)
    (f : skb_font_t F32 hb_font_t) (glyph_id : Z)
    (font_size offset_x offset_y : F32) (t : skb_image_t) : Bitmap F32 :=
  let scale := pixel_scale font_size (upem_scale f) in
  generateMSDF (width t) (height t)
    (edgeColoringSimple (normalize (glyph_shape glyph_outline f glyph_id)) (f64_lit 3 0))
    (make_projection scale offset_x offset_y) (make_range scale).

(** Two targets of the same dimensions, stride and bytes per pixel. *)
Definition same_geometry (t1 t2 : skb_image_t) : Prop :=
  width t1 = width t2 /\ height t1 = height t2 /\
  stride_bytes t1 = stride_bytes t2 /\ bpp t1 = bpp t2.

(** [msdfgen::Projection::project], as the comment at the construction of
    the projection states it: output = scale * (coord + translate). *)
Definition project {F32 F64 : Type} {FA : FloatArith F32 F64}
    (p : Projection F64) (v : Point2 F64) : Point2 F64 :=
  {| vx := f64_mul (vx (proj_scale p)) (f64_add (vx v) (vx (proj_translate p)));
     vy := f64_mul (vy (proj_scale p)) (f64_add (vy v) (vy (proj_translate p))) |}.

(** ** A small font and target to run the embedding on

    Glyph 0 has no outline (a space), glyph 1 a MoveTo alone, every other
    glyph the unit square. The stand-ins for msdfgen keep the shape and
    fill the bitmap with multiples of one half. *)
Module Fixture.

Definition zero : IEEE.float := IEEE.lit32 0 0.
Definition one : IEEE.float := IEEE.lit32 1 0.

Definition outline (_ : unit) (glyph_id : Z) : list (PathCommand IEEE.float) :=
  if glyph_id =? 0 then []
  else if glyph_id =? 1 then [MoveTo zero zero; ClosePath]
  else [MoveTo zero zero; LineTo one zero; LineTo one one; LineTo zero one;
        LineTo zero zero; ClosePath].

Definition normalize (s : Shape IEEE.double) : Shape IEEE.double := s.

Definition edgeColoringSimple (s : Shape IEEE.double) (_ : IEEE.double)
  : Shape IEEE.double := s.

Definition generateMSDF (w h : Z) (_ : Shape IEEE.double)
    (_ : Projection IEEE.double) (_ : Range IEEE.double) : Bitmap IEEE.float :=
  fun x y c => IEEE.lit32 (x + y + c - 2) (-1).

Definition font : skb_font_t IEEE.float unit :=
  {| hb_font := tt; upem_scale := IEEE.lit32 1 (-10) |}.

(** A buffer filled with the sentinel 0xAA. *)
Definition sentinel : mem := fun _ => 170.

Definition image (w h stride : Z) : skb_image_t :=
  {| buffer := sentinel; width := w; height := h; stride_bytes := stride; bpp := 3 |}.

Definition rasterize (glyph_id : Z) (t : skb_image_t) : outcome IEEE.double :=
  skb_rasterizer_draw_msdf_glyph (skb_rasterizer_t := unit) (skb_temp_alloc_t := unit)
    outline normalize edgeColoringSimple generateMSDF
    None None glyph_id (Some font) (IEEE.lit32 16 0) zero zero (Some t).

(** A second environment: another outline source and another library,
    which behave as the first ones on glyph 2, on shapes with a contour, for
    the coloring parameter 3.0 and on the pixels of the bitmap, and
    differently elsewhere. *)
Definition other_outline (hb : unit) (glyph_id : Z) : list (PathCommand IEEE.float) :=
  if glyph_id =? 2 then outline hb 2 else [MoveTo one one].

Definition other_normalize (s : Shape IEEE.double) : Shape IEEE.double :=
  match contours s with
  | [] => {| contours := [[]] |}
  | _ :: _ => s
  end.

Definition other_edgeColoringSimple (s : Shape IEEE.double) (k : IEEE.double)
  : Shape IEEE.double :=
  if SFeqb k (IEEE.lit64 3 0) then s else {| contours := [] |}.

Definition other_generateMSDF (w h : Z) (s : Shape IEEE.double)
    (p : Projection IEEE.double) (r : Range IEEE.double) : Bitmap IEEE.float :=
  fun x y c =>
    if (0 <=? x) && (x <? w) && (0 <=? y) && (y <? h) && (0 <=? c) && (c <? 3)
    then generateMSDF w h s p r x y c
    else S754_nan.

(** The bytes at offsets [0 .. n-1] of the target after a call. *)
Definition bytes_after (o : outcome IEEE.double) (n : Z) : list Z :=
  match target_after o with
  | Some t => map (buffer t) (seqZ 0 n)
  | None => []
  end.

End Fixture.

(** ** Auxiliary definitions for the properties of the whole file *)

(** First and last point of an edge. *)
Definition edge_start {F64 : Type} (e : EdgeHolder F64) : Point2 F64 :=
  match e with
  | LinearSegment p0 _ | QuadraticSegment p0 _ _ | CubicSegment p0 _ _ _ => p0
  end.

Definition edge_end {F64 : Type} (e : EdgeHolder F64) : Point2 F64 :=
  match e with
  | LinearSegment _ p | QuadraticSegment _ _ p | CubicSegment _ _ _ p => p
  end.

(** The edges of [c] form a path from [p]: the first starts at [p] and each
    other one where the edge before it ended. *)
Fixpoint path_from {F64 : Type} (p : Point2 F64) (c : Contour F64) : Prop :=
  match c with
  | [] => True
  | e :: c' => edge_start e = p /\ path_from (edge_end e) c'
  end.

(** The edges the commands draw from the point [p], up to the next MoveTo
    or the end of the stream. *)
Fixpoint contour_of {F32 F64 : Type} {FA : FloatArith F32 F64}
    (p : Point2 F64) (cmds : list (PathCommand F32)) : Contour F64 :=
  match cmds with
  | [] => []
  | MoveTo _ _ :: _ => []
  | LineTo x y :: r => LinearSegment p (point2 x y) :: contour_of (point2 x y) r
  | QuadTo c1x c1y x y :: r =>
      QuadraticSegment p (point2 c1x c1y) (point2 x y) :: contour_of (point2 x y) r
  | CubicTo c1x c1y c2x c2y x y :: r =>
      CubicSegment p (point2 c1x c1y) (point2 c2x c2y) (point2 x y)
        :: contour_of (point2 x y) r
  | ClosePath :: r => contour_of p r
  end.

(** A stream of commands read as a list of contours: one per MoveTo, made
    of the edges drawn from its point up to the next MoveTo; what comes
    before the first MoveTo is skipped. *)
Fixpoint split_contours {F32 F64 : Type} {FA : FloatArith F32 F64}
    (cmds : list (PathCommand F32)) : list (Contour F64) :=
  match cmds with
  | [] => []
  | MoveTo x y :: r => contour_of (point2 x y) r :: split_contours r
  | _ :: r => split_contours r
  end.

Definition is_ClosePath {F32 : Type} (c : PathCommand F32) : bool :=
  match c with ClosePath => true | _ => false end.

(** The stream from its first MoveTo on. *)
Fixpoint from_first_MoveTo {F32 : Type} (cmds : list (PathCommand F32))
  : list (PathCommand F32) :=
  match cmds with
  | [] => []
  | MoveTo x y :: r => MoveTo x y :: r
  | _ :: r => from_first_MoveTo r
  end.

(** The byte at offset [a] after the copy loops over rows that do not
    overlap: inside the pixels of a row the quantized sample, elsewhere the
    byte [m a] that was there. *)
Definition copied_byte {F32 F64 : Type} {FA : FloatArith F32 F64}
    (msdf : Bitmap F32) (row_stride w h : Z) (m : mem) (a : Z) : Z :=
  if (0 <=? a) && (a / row_stride <? h) && (a mod row_stride <? 3 * w)
  then quantize (msdf (a mod row_stride / 3) (a / row_stride) (a mod row_stride mod 3))
  else m a.

(** ** Shape builder *)

Section ShapeBuilder.

Context {F32 F64 : Type} {FA : FloatArith F32 F64}.

Implicit Types (ctx : MsdfBuildContext F64) (cmds : list (PathCommand F32)).

Lemma draw_event_wf ctx c : context_wf ctx -> context_wf (draw_event ctx c).
Proof.
  unfold context_wf.
  destruct c; simpl;
    unfold msdf_line_to, msdf_quadratic_to, msdf_cubic_to, msdf_close_path.
  - intros _. rewrite length_app. simpl. lia.
  - destruct (contour ctx) eqn:E; simpl; rewrite ?E, ?length_alter; auto.
  - destruct (contour ctx) eqn:E; simpl; rewrite ?E, ?length_alter; auto.
  - destruct (contour ctx) eqn:E; simpl; rewrite ?E, ?length_alter; auto.
  - auto.
Qed.

Lemma fold_draw_event_wf cmds ctx :
  context_wf ctx -> context_wf (fold_left draw_event cmds ctx).
Proof.
  revert ctx. induction cmds as [|c cmds IH]; intros ctx Hwf; simpl; [exact Hwf|].
  apply IH, draw_event_wf, Hwf.
Qed.

Lemma build_shape_wf cmds : context_wf (build_shape cmds).
Proof. apply fold_draw_event_wf. reflexivity. Qed.

(** Without an open contour, everything but MoveTo leaves the context as
    it is. *)
Lemma draw_event_closed ctx c :
  contour ctx = None -> is_MoveTo c = false -> draw_event ctx c = ctx.
Proof.
  intros Hc Hm. destruct c; simpl in *; try discriminate;
    unfold msdf_line_to, msdf_quadratic_to, msdf_cubic_to, msdf_close_path;
    rewrite ?Hc; reflexivity.
Qed.

Lemma fold_draw_event_closed cmds ctx :
  contour ctx = None -> forallb (fun c => negb (is_MoveTo c)) cmds = true ->
  fold_left draw_event cmds ctx = ctx.
Proof.
  intros Hc. induction cmds as [|c cmds IH]; simpl; [reflexivity|].
  intros [Hm Hall]%andb_prop. apply negb_true_iff in Hm.
  rewrite draw_event_closed by assumption. apply IH, Hall.
Qed.

Lemma draw_event_open ctx c :
  contour ctx <> None -> contour (draw_event ctx c) <> None.
Proof.
  destruct c; simpl;
    unfold msdf_line_to, msdf_quadratic_to, msdf_cubic_to, msdf_close_path;
    try (destruct (contour ctx); simpl; congruence).
Qed.

Lemma fold_draw_event_open cmds ctx :
  contour ctx <> None \/ existsb is_MoveTo cmds = true ->
  contour (fold_left draw_event cmds ctx) <> None.
Proof.
  revert ctx. induction cmds as [|c cmds IH]; intros ctx H; simpl.
  - destruct H as [H|H]; [exact H|discriminate].
  - apply IH. destruct H as [H|H].
    + left. apply draw_event_open, H.
    + simpl in H. apply orb_prop in H as [H|H]; [left|right; exact H].
      destruct c; discriminate.
Qed.

(** An open context has a last contour, the one [contour] points to. *)
Lemma open_context_last ctx i :
  context_wf ctx -> contour ctx = Some i ->
  exists cs c, contours (shape ctx) = cs ++ [c] /\ i = length cs.
Proof.
  unfold context_wf. intros Hwf Hi. rewrite Hi in Hwf.
  destruct (contours (shape ctx)) as [|c0 l] eqn:E using rev_ind; [discriminate|].
  exists l, c0. split; [reflexivity|]. rewrite length_app in Hwf. simpl in Hwf. lia.
Qed.

Lemma addEdge_last (s : Shape F64) cs c e :
  contours s = cs ++ [c] ->
  contours (addEdge s (length cs) e) = cs ++ [c ++ [e]].
Proof.
  intros E. unfold addEdge. simpl. rewrite E.
  replace (length cs) with (length cs + 0)%nat by lia.
  rewrite alter_app_r. reflexivity.
Qed.

(** Every MoveTo pushes one empty contour. *)
Lemma msdf_move_to_contours ctx x y :
  contours (shape (msdf_move_to ctx x y)) = contours (shape ctx) ++ [[]].
Proof. reflexivity. Qed.

(** A stream without line, quadratic or cubic commands adds one contour
    without edges per MoveTo. *)
Lemma fold_draw_event_no_draw cmds ctx :
  forallb (fun c => negb (is_draw c)) cmds = true ->
  contours (shape (fold_left draw_event cmds ctx)) =
  contours (shape ctx) ++ replicate (length (List.filter is_MoveTo cmds)) [].
Proof.
  revert ctx. induction cmds as [|c cmds IH]; intros ctx; simpl.
  - intros _. rewrite app_nil_r. reflexivity.
  - intros [Hc Hall]%andb_prop. rewrite IH by exact Hall.
    destruct c; try discriminate; simpl.
    + rewrite <- app_assoc. reflexivity.
    + reflexivity.
Qed.

Lemma build_shape_no_MoveTo cmds :
  forallb (fun c => negb (is_MoveTo c)) cmds = true ->
  build_shape cmds = initial_context.
Proof. apply fold_draw_event_closed. reflexivity. Qed.

Lemma build_shape_MoveTo cmds :
  existsb is_MoveTo cmds = true -> contours (shape (build_shape cmds)) <> [].
Proof.
  intros Hm Hnil.
  assert (Hopen : contour (build_shape (F64 := F64) cmds) <> None)
    by (apply fold_draw_event_open; right; exact Hm).
  assert (Hwf := build_shape_wf cmds). unfold context_wf in Hwf.
  destruct (contour (build_shape cmds)); [|congruence].
  rewrite Hnil in Hwf. discriminate.
Qed.

(** C8. With no contour open, a LineTo, QuadTo or CubicTo event leaves the
    context, shape included, as it is; so does a whole stream without
    MoveTo. After a MoveTo the context points to the last contour of the
    shape, and each such event appends to that contour the linear, quadratic
    or cubic edge from the current point to the endpoint of the event, which
    becomes the current point. *)
Theorem draw_commands_extend_open_contour cmds :
  let ctx : MsdfBuildContext F64 := build_shape cmds in
  (forall ctx0 : MsdfBuildContext F64, contour ctx0 = None ->
     (forall x y, msdf_line_to ctx0 x y = ctx0) /\
     (forall c1x c1y x y, msdf_quadratic_to ctx0 c1x c1y x y = ctx0) /\
     (forall c1x c1y c2x c2y x y, msdf_cubic_to ctx0 c1x c1y c2x c2y x y = ctx0)) /\
  (forallb (fun c => negb (is_MoveTo c)) cmds = true ->
     ctx = initial_context /\ contours (shape ctx) = []) /\
  (existsb is_MoveTo cmds = true ->
     exists cs c, contours (shape ctx) = cs ++ [c] /\
       (forall x y,
          let ctx' := draw_event ctx (LineTo x y) in
          contours (shape ctx') =
            cs ++ [c ++ [LinearSegment (lastPoint ctx) (point2 x y)]] /\
          lastPoint ctx' = point2 x y /\ contour ctx' = contour ctx) /\
       (forall c1x c1y x y,
          let ctx' := draw_event ctx (QuadTo c1x c1y x y) in
          contours (shape ctx') =
            cs ++ [c ++ [QuadraticSegment (lastPoint ctx) (point2 c1x c1y)
                           (point2 x y)]] /\
          lastPoint ctx' = point2 x y /\ contour ctx' = contour ctx) /\
       (forall c1x c1y c2x c2y x y,
          let ctx' := draw_event ctx (CubicTo c1x c1y c2x c2y x y) in
          contours (shape ctx') =
            cs ++ [c ++ [CubicSegment (lastPoint ctx) (point2 c1x c1y)
                           (point2 c2x c2y) (point2 x y)]] /\
          lastPoint ctx' = point2 x y /\ contour ctx' = contour ctx)).
Proof.
  cbv zeta. split; [|split].
  - intros ctx0 Hc.
    unfold msdf_line_to, msdf_quadratic_to, msdf_cubic_to. rewrite Hc. auto.
  - intros Hno. rewrite build_shape_no_MoveTo by exact Hno. split; reflexivity.
  - intros Hm.
    assert (Hopen : contour (build_shape (F64 := F64) cmds) <> None)
      by (apply fold_draw_event_open; right; exact Hm).
    destruct (contour (build_shape cmds)) as [i|] eqn:Hi; [clear Hopen|congruence].
    destruct (open_context_last _ i (build_shape_wf cmds) Hi) as (cs & c & Hcs & ->).
    exists cs, c. split; [exact Hcs|].
    simpl. unfold msdf_line_to, msdf_quadratic_to, msdf_cubic_to. rewrite Hi.
    repeat split; simpl; apply addEdge_last, Hcs.
Qed.

End ShapeBuilder.

(** ** Stores and loops *)

Section Loops.

Context {A : Type}.
Variable f : mem -> A -> mem.
Variable P : A -> Z -> option Z.
Hypothesis f_spec : forall m i a, f m i a = default (m a) (P i a).

Lemma last_hit_snoc l i a :
  last_hit P (l ++ [i]) a =
  match P i a with Some v => Some v | None => last_hit P l a end.
Proof. unfold last_hit. rewrite fold_left_app. reflexivity. Qed.

Lemma fold_left_last_hit l m a :
  fold_left f l m a = default (m a) (last_hit P l a).
Proof.
  induction l as [|i l IH] using rev_ind; [reflexivity|].
  rewrite fold_left_app, last_hit_snoc. simpl. rewrite f_spec.
  destruct (P i a); [reflexivity|exact IH].
Qed.

Lemma last_hit_None l a :
  last_hit P l a = None <-> forall i, i ∈ l -> P i a = None.
Proof.
  induction l as [|i l IH] using rev_ind.
  - split; [intros _ i Hi; inversion Hi|reflexivity].
  - rewrite last_hit_snoc. split.
    + destruct (P i a) eqn:E; [discriminate|]. intros Hl j Hj.
      apply elem_of_app in Hj as [Hj|Hj].
      * apply IH; assumption.
      * apply list_elem_of_singleton in Hj. subst j. exact E.
    + intros Hall. rewrite (Hall i) by (apply elem_of_app; right; constructor).
      apply IH. intros j Hj. apply Hall, elem_of_app. left. exact Hj.
Qed.

Lemma last_hit_Some l a v :
  last_hit P l a = Some v -> exists i, i ∈ l /\ P i a = Some v.
Proof.
  induction l as [|i l IH] using rev_ind; [discriminate|].
  rewrite last_hit_snoc. destruct (P i a) eqn:E.
  - intros [= ->]. exists i. split; [apply elem_of_app; right; constructor|exact E].
  - intros H. destruct (IH H) as (j & Hj & HP). exists j.
    split; [apply elem_of_app; left; exact Hj|exact HP].
Qed.

Lemma last_hit_agree l a i v :
  i ∈ l -> P i a = Some v ->
  (forall j v', j ∈ l -> P j a = Some v' -> v' = v) ->
  last_hit P l a = Some v.
Proof.
  intros Hi HP Hagree.
  destruct (last_hit P l a) as [v'|] eqn:E.
  - apply last_hit_Some in E as (j & Hj & HPj).
    rewrite (Hagree j v' Hj HPj). reflexivity.
  - rewrite last_hit_None in E. rewrite (E i Hi) in HP. discriminate.
Qed.

End Loops.

Lemma int_wrap_small z : - 2^31 <= z <= INT_MAX -> int_wrap z = z.
Proof.
  unfold int_wrap, INT_MAX. intros H.
  rewrite Z.mod_small by lia. lia.
Qed.

Lemma int_mul_small a b : - 2^31 <= a * b <= INT_MAX -> int_mul a b = a * b.
Proof. apply int_wrap_small. Qed.

Section Copy.

Context {F32 F64 : Type} {FA : FloatArith F32 F64}.
Variable msdf : Bitmap F32.
Variables row_stride w h : Z.

Lemma write_pixel_spec y m x a :
  write_pixel msdf row_stride y m x a =
  default (m a) (pixel_writes msdf row_stride y x a).
Proof.
  unfold write_pixel, pixel_writes, store.
  destruct (a =? pixel_offset row_stride y x + 2); [reflexivity|].
  destruct (a =? pixel_offset row_stride y x + 1); [reflexivity|].
  destruct (a =? pixel_offset row_stride y x + 0); reflexivity.
Qed.

Lemma write_row_spec m y a :
  write_row msdf row_stride w m y a =
  default (m a) (row_writes msdf row_stride w y a).
Proof.
  unfold write_row, row_writes.
  apply fold_left_last_hit. intros m' x a'. apply write_pixel_spec.
Qed.

Lemma copy_to_target_spec m a :
  copy_to_target msdf row_stride w h m a =
  default (m a) (image_writes msdf row_stride w h a).
Proof.
  unfold copy_to_target, image_writes.
  apply fold_left_last_hit. intros m' y a'. apply write_row_spec.
Qed.

Lemma pixel_writes_Some y x a v :
  pixel_writes msdf row_stride y x a = Some v ->
  exists c, 0 <= c < 3 /\ a = pixel_offset row_stride y x + c /\
            v = quantize (msdf x y c).
Proof.
  unfold pixel_writes.
  destruct (Z.eqb_spec a (pixel_offset row_stride y x + 2));
    [intros [= <-]; exists 2; repeat split; lia || assumption|].
  destruct (Z.eqb_spec a (pixel_offset row_stride y x + 1));
    [intros [= <-]; exists 1; repeat split; lia || assumption|].
  destruct (Z.eqb_spec a (pixel_offset row_stride y x + 0));
    [intros [= <-]; exists 0; repeat split; lia || assumption|].
  discriminate.
Qed.

Lemma pixel_writes_hit y x c :
  0 <= c < 3 ->
  pixel_writes msdf row_stride y x (pixel_offset row_stride y x + c) =
  Some (quantize (msdf x y c)).
Proof.
  intros Hc. unfold pixel_writes.
  assert (c = 0 \/ c = 1 \/ c = 2) as [-> | [-> | ->]] by lia.
  - rewrite (proj2 (Z.eqb_neq _ _)) by lia.
    rewrite (proj2 (Z.eqb_neq _ _)) by lia.
    rewrite Z.eqb_refl. reflexivity.
  - rewrite (proj2 (Z.eqb_neq _ _)) by lia.
    rewrite Z.eqb_refl. reflexivity.
  - rewrite Z.eqb_refl. reflexivity.
Qed.

Lemma pixel_writes_None y x a :
  pixel_writes msdf row_stride y x a = None <->
  forall c, 0 <= c < 3 -> a <> pixel_offset row_stride y x + c.
Proof.
  split.
  - intros HN c Hc ->. rewrite pixel_writes_hit in HN by exact Hc. discriminate.
  - intros Hall. unfold pixel_writes.
    rewrite (proj2 (Z.eqb_neq _ _)) by (apply Hall; lia).
    rewrite (proj2 (Z.eqb_neq _ _)) by (apply Hall; lia).
    rewrite (proj2 (Z.eqb_neq _ _)) by (apply Hall; lia).
    reflexivity.
Qed.

(** Every byte the loops write is the quantized sample of a pixel and
    channel stored at that address. *)
Lemma image_writes_Some a v :
  image_writes msdf row_stride w h a = Some v ->
  exists x y c, 0 <= x < w /\ 0 <= y < h /\ 0 <= c < 3 /\
                a = pixel_offset row_stride y x + c /\
                v = quantize (msdf x y c).
Proof.
  intros H. apply last_hit_Some in H as (y & Hy & H).
  apply last_hit_Some in H as (x & Hx & H).
  apply pixel_writes_Some in H as (c & Hc & Ha & Hv).
  apply elem_of_seqZ in Hy, Hx.
  exists x, y, c. repeat split; try lia; assumption.
Qed.

(** The addresses the loops leave alone. *)
Lemma image_writes_None a :
  image_writes msdf row_stride w h a = None <->
  forall x y c, 0 <= x < w -> 0 <= y < h -> 0 <= c < 3 ->
                a <> pixel_offset row_stride y x + c.
Proof.
  unfold image_writes, row_writes. rewrite last_hit_None. split.
  - intros H x y c Hx Hy Hc.
    assert (Hrow := H y ltac:(apply elem_of_seqZ; lia)).
    rewrite last_hit_None in Hrow.
    assert (Hpix := Hrow x ltac:(apply elem_of_seqZ; lia)).
    rewrite pixel_writes_None in Hpix. apply Hpix, Hc.
  - intros H y Hy. apply last_hit_None. intros x Hx.
    apply pixel_writes_None. intros c Hc.
    apply elem_of_seqZ in Hy, Hx. apply H; lia.
Qed.

(** Offsets of pixels inside the image, when rows do not overlap. *)
Lemma pixel_offset_exact y x :
  3 * w <= row_stride -> h * row_stride <= INT_MAX ->
  0 <= x < w -> 0 <= y < h ->
  pixel_offset row_stride y x = y * row_stride + x * 3.
Proof.
  intros Hrs Hmax Hx Hy. unfold pixel_offset.
  assert (0 <= y * row_stride <= INT_MAX) by nia.
  assert (0 <= x * 3 <= INT_MAX) by nia.
  rewrite !int_mul_small by (unfold INT_MAX in *; lia). reflexivity.
Qed.

Lemma pixel_offset_inj y x c y' x' c' :
  3 * w <= row_stride -> h * row_stride <= INT_MAX ->
  0 <= x < w -> 0 <= y < h -> 0 <= c < 3 ->
  0 <= x' < w -> 0 <= y' < h -> 0 <= c' < 3 ->
  pixel_offset row_stride y x + c = pixel_offset row_stride y' x' + c' ->
  y = y' /\ x = x' /\ c = c'.
Proof.
  intros Hrs Hmax Hx Hy Hc Hx' Hy' Hc'.
  rewrite !pixel_offset_exact by assumption. intros E.
  assert (y = y') as -> by nia.
  split; [reflexivity|]. lia.
Qed.

(** With disjoint rows every pixel keeps the bytes stored for it. *)
Lemma image_writes_hit y x c :
  3 * w <= row_stride -> h * row_stride <= INT_MAX ->
  0 <= x < w -> 0 <= y < h -> 0 <= c < 3 ->
  image_writes msdf row_stride w h (pixel_offset row_stride y x + c) =
  Some (quantize (msdf x y c)).
Proof.
  intros Hrs Hmax Hx Hy Hc.
  destruct (image_writes msdf row_stride w h (pixel_offset row_stride y x + c))
    as [v|] eqn:E.
  - apply image_writes_Some in E as (x' & y' & c' & Hx' & Hy' & Hc' & Ha & ->).
    apply pixel_offset_inj in Ha as (-> & -> & ->); try assumption. reflexivity.
  - rewrite image_writes_None in E. exfalso. exact (E x y c Hx Hy Hc eq_refl).
Qed.

End Copy.

(** ** The rasterizer, branch by branch *)

Section Rasterizer.

Context {F32 F64 : Type} {FA : FloatArith F32 F64}.
Context {hb_font_t skb_rasterizer_t skb_temp_alloc_t : Type}.
Variable glyph_outline : hb_font_t -> Z -> list (PathCommand F32).
Variable normalize : Shape F64 -> Shape F64.
Variable edgeColoringSimple : Shape F64 -> F64 -> Shape F64.
Variable generateMSDF :
  Z -> Z -> Shape F64 -> Projection F64 -> Range F64 -> Bitmap F32.

Local Abbreviation draw :=
  (skb_rasterizer_draw_msdf_glyph
     (skb_rasterizer_t := skb_rasterizer_t) (skb_temp_alloc_t := skb_temp_alloc_t)
     glyph_outline normalize edgeColoringSimple generateMSDF).
Local Abbreviation field := (glyph_field glyph_outline normalize edgeColoringSimple generateMSDF).
Local Abbreviation shape_of := (glyph_shape glyph_outline).

Implicit Types (rasterizer : option skb_rasterizer_t)
  (temp_alloc : option skb_temp_alloc_t)
  (f : skb_font_t F32 hb_font_t) (font : option (skb_font_t F32 hb_font_t))
  (t : skb_image_t) (target : option skb_image_t).

Lemma draw_precondition_failure rasterizer temp_alloc glyph_id font fs ox oy target :
  font = None \/ target = None \/ (exists t, target = Some t /\ bpp t <> 3) ->
  draw rasterizer temp_alloc glyph_id font fs ox oy target =
  {| returned := false; target_after := target; library_calls := [] |}.
Proof.
  unfold skb_rasterizer_draw_msdf_glyph.
  intros [-> | [-> | (t & -> & Hbpp)]].
  - reflexivity.
  - destruct font; reflexivity.
  - destruct font; [|reflexivity].
    apply Z.eqb_neq in Hbpp. rewrite Hbpp. reflexivity.
Qed.

Lemma draw_empty_glyph rasterizer temp_alloc glyph_id f fs ox oy t :
  bpp t = 3 -> contours (shape_of f glyph_id) = [] ->
  draw rasterizer temp_alloc glyph_id (Some f) fs ox oy (Some t) =
  {| returned := true;
     target_after :=
       Some {| buffer :=
                 memset (buffer t) 0
                   (size_t_of_int (int_mul (int_mul (width t) (height t)) 3));
               width := width t; height := height t;
               stride_bytes := stride_bytes t; bpp := bpp t |};
     library_calls := [] |}.
Proof.
  unfold skb_rasterizer_draw_msdf_glyph, glyph_shape. intros -> ->. reflexivity.
Qed.

Lemma draw_glyph rasterizer temp_alloc glyph_id f fs ox oy t :
  bpp t = 3 -> contours (shape_of f glyph_id) <> [] ->
  draw rasterizer temp_alloc glyph_id (Some f) fs ox oy (Some t) =
  {| returned := true;
     target_after :=
       Some {| buffer :=
                 copy_to_target (field f glyph_id fs ox oy t) (row_stride_of t)
                   (width t) (height t) (buffer t);
               width := width t; height := height t;
               stride_bytes := stride_bytes t; bpp := bpp t |};
     library_calls :=
       [ call_normalize (shape_of f glyph_id);
         call_edgeColoringSimple (normalize (shape_of f glyph_id)) (f64_lit 3 0);
         call_generateMSDF (width t) (height t)
           (edgeColoringSimple (normalize (shape_of f glyph_id)) (f64_lit 3 0))
           (make_projection (pixel_scale fs (upem_scale f)) ox oy)
           (make_range (pixel_scale fs (upem_scale f))) ] |}.
Proof.
  unfold skb_rasterizer_draw_msdf_glyph, glyph_field, glyph_shape.
  intros -> Hne. simpl.
  destruct (contours _) eqn:E; [congruence|]. reflexivity.
Qed.

(** C3. The call returns false exactly when [font] is null, [target] is
    null or [target->bpp] is not 3; it then leaves the target as it was
    (no byte written) and calls nothing; in every other case it returns
    true. *)
Theorem returns_false_iff_precondition_violated
    rasterizer temp_alloc glyph_id font fs ox oy target :
  let out := draw rasterizer temp_alloc glyph_id font fs ox oy target in
  let violated :=
    font = None \/ target = None \/ (exists t, target = Some t /\ bpp t <> 3) in
  (returned out = false <-> violated) /\
  (violated -> target_after out = target /\ library_calls out = []) /\
  (~ violated -> returned out = true).
Proof.
  cbv zeta.
  assert (Hcases :
    (font = None \/ target = None \/ (exists t, target = Some t /\ bpp t <> 3)) \/
    (exists f t, font = Some f /\ target = Some t /\ bpp t = 3)).
  { destruct font as [f|]; [|left; left; reflexivity].
    destruct target as [t|]; [|left; right; left; reflexivity].
    destruct (Z.eq_dec (bpp t) 3) as [E|E].
    - right. exists f, t. auto.
    - left. right. right. exists t. auto. }
  destruct Hcases as [Hv | (f & t & -> & -> & Hbpp)].
  - rewrite draw_precondition_failure by exact Hv. simpl.
    split; [tauto|]. split; [auto|]. intros Hn. destruct (Hn Hv).
  - assert (Hnv : ~ (Some f = None \/ Some t = None \/
                     (exists t', Some t = Some t' /\ bpp t' <> 3))).
    { intros [H | [H | (t' & [= <-] & H)]]; congruence. }
    assert (Htrue : returned (draw rasterizer temp_alloc glyph_id (Some f) fs ox oy
                                (Some t)) = true).
    { destruct (contours (shape_of f glyph_id)) eqn:E.
      - rewrite draw_empty_glyph by assumption. reflexivity.
      - rewrite draw_glyph by (try assumption; congruence). reflexivity. }
    split; [|split].
    + split; [rewrite Htrue; discriminate | intros Hv; destruct (Hnv Hv)].
    + intros Hv. destruct (Hnv Hv).
    + intros _. exact Htrue.
Qed.

(** C10. The arguments [rasterizer] and [temp_alloc] are not used: calls
    that differ only in them, null or not, have the same outcome (the value
    returned, the target and the library calls). *)
Theorem rasterizer_and_temp_alloc_unused
    rasterizer1 temp_alloc1 rasterizer2 temp_alloc2 glyph_id font fs ox oy target :
  draw rasterizer1 temp_alloc1 glyph_id font fs ox oy target =
  draw rasterizer2 temp_alloc2 glyph_id font fs ox oy target.
Proof. reflexivity. Qed.

Lemma glyph_shape_build f glyph_id :
  shape_of f glyph_id = shape (build_shape (glyph_outline (hb_font f) glyph_id)).
Proof. reflexivity. Qed.

(** C2. When the built shape has no contour (as for an outline without
    MoveTo, in particular without any command), the call returns true,
    makes no library call (no normalization, edge coloring or field
    generation) and sets to 0 the first [width*height*3] bytes of the
    buffer, whatever the stride, leaving every other byte as it was. The
    count is the [int] product converted to [size_t]; it is
    [width*height*3] when that fits an [int]. *)
Theorem empty_glyph_zero_fill rasterizer temp_alloc glyph_id f fs ox oy t :
  let out := draw rasterizer temp_alloc glyph_id (Some f) fs ox oy (Some t) in
  let n := size_t_of_int (int_mul (int_mul (width t) (height t)) 3) in
  (forallb (fun c => negb (is_MoveTo c)) (glyph_outline (hb_font f) glyph_id) = true ->
   contours (shape_of f glyph_id) = []) /\
  (bpp t = 3 -> contours (shape_of f glyph_id) = [] ->
   returned out = true /\
   library_calls out = [] /\
   (exists t', target_after out = Some t' /\ same_geometry t' t /\
      forall a, buffer t' a = if (0 <=? a) && (a <? n) then 0 else buffer t a) /\
   (0 <= width t -> 0 <= height t -> width t * height t * 3 <= INT_MAX ->
    n = width t * height t * 3)).
Proof.
  cbv zeta. split.
  - intros Hno. rewrite glyph_shape_build, build_shape_no_MoveTo by exact Hno.
    reflexivity.
  - intros Hbpp Hempty. rewrite draw_empty_glyph by assumption. simpl.
    split; [reflexivity|]. split; [reflexivity|]. split.
    + eexists. split; [reflexivity|]. split; [repeat split|]. reflexivity.
    + intros Hw Hh Hmax. unfold size_t_of_int.
      assert (0 <= width t * height t <= INT_MAX) by nia.
      rewrite (int_mul_small (width t)) by (unfold INT_MAX in *; lia).
      rewrite int_mul_small by (unfold INT_MAX in *; lia).
      apply Z.mod_small. unfold INT_MAX in *. lia.
Qed.

(** C9. Every MoveTo adds a contour, followed by a draw command or not. For
    an outline with a MoveTo and no line, quadratic or cubic command the
    shape has one contour without edges per MoveTo, so it is not empty, and
    the call does not take the zero-fill branch: it normalizes, colors and
    generates the field, and returns true. *)
Theorem move_to_only_outline_is_rasterized
    rasterizer temp_alloc glyph_id f fs ox oy t :
  let cmds := glyph_outline (hb_font f) glyph_id in
  let out := draw rasterizer temp_alloc glyph_id (Some f) fs ox oy (Some t) in
  (forall (ctx : MsdfBuildContext F64) (x y : F32),
     contours (shape (msdf_move_to ctx x y)) = contours (shape ctx) ++ [[]]) /\
  (existsb is_MoveTo cmds = true ->
   forallb (fun c => negb (is_draw c)) cmds = true ->
   contours (shape_of f glyph_id) =
     replicate (length (List.filter is_MoveTo cmds)) [] /\
   contours (shape_of f glyph_id) <> [] /\
   (bpp t = 3 ->
    returned out = true /\
    library_calls out =
      [ call_normalize (shape_of f glyph_id);
        call_edgeColoringSimple (normalize (shape_of f glyph_id)) (f64_lit 3 0);
        call_generateMSDF (width t) (height t)
          (edgeColoringSimple (normalize (shape_of f glyph_id)) (f64_lit 3 0))
          (make_projection (pixel_scale fs (upem_scale f)) ox oy)
          (make_range (pixel_scale fs (upem_scale f))) ] /\
    exists t', target_after out = Some t' /\
      buffer t' = copy_to_target (field f glyph_id fs ox oy t) (row_stride_of t)
                    (width t) (height t) (buffer t))).
Proof.
  cbv zeta. split; [intros; reflexivity|].
  intros Hm Hnd.
  assert (Hne : contours (shape_of f glyph_id) <> [])
    by (rewrite glyph_shape_build; apply build_shape_MoveTo, Hm).
  split; [|split; [exact Hne|]].
  - rewrite glyph_shape_build. unfold build_shape.
    rewrite fold_draw_event_no_draw by exact Hnd. reflexivity.
  - intros Hbpp. rewrite draw_glyph by assumption. simpl.
    split; [reflexivity|]. split; [reflexivity|].
    eexists. split; reflexivity.
Qed.

(** The bytes of the target after a call that reaches quantization. *)
Lemma quantized_samples_stored rasterizer temp_alloc glyph_id f fs ox oy t :
  bpp t = 3 -> contours (shape_of f glyph_id) <> [] ->
  let out := draw rasterizer temp_alloc glyph_id (Some f) fs ox oy (Some t) in
  let raw := field f glyph_id fs ox oy t in
  let rs := row_stride_of t in
  exists t', target_after out = Some t' /\ same_geometry t' t /\
    (forall a,
       (buffer t' a = buffer t a /\
        forall x y c, 0 <= x < width t -> 0 <= y < height t -> 0 <= c < 3 ->
                      a <> pixel_offset rs y x + c) \/
       (exists x y c, 0 <= x < width t /\ 0 <= y < height t /\ 0 <= c < 3 /\
                      a = pixel_offset rs y x + c /\
                      buffer t' a = quantize (raw x y c))) /\
    (rows_disjoint t ->
     forall x y c, 0 <= x < width t -> 0 <= y < height t -> 0 <= c < 3 ->
       pixel_offset rs y x = y * rs + x * 3 /\
       buffer t' (y * rs + x * 3 + c) = quantize (raw x y c)).
Proof.
  intros Hbpp Hne. cbv zeta. rewrite draw_glyph by assumption. simpl.
  eexists. split; [reflexivity|]. split; [repeat split|]. simpl. split.
  - intros a. rewrite copy_to_target_spec.
    destruct (image_writes _ _ _ _ a) as [v|] eqn:E; simpl.
    + right. apply image_writes_Some in E as (x & y & c & Hx & Hy & Hc & Ha & Hv).
      exists x, y, c. auto 10.
    + left. split; [reflexivity|]. rewrite image_writes_None in E. exact E.
  - intros [Hrs Hmax] x y c Hx Hy Hc.
    assert (Hoff := pixel_offset_exact (row_stride_of t) (width t) (height t) y x
                      Hrs Hmax Hx Hy).
    split; [exact Hoff|].
    rewrite <- Hoff, copy_to_target_spec, image_writes_hit by assumption.
    reflexivity.
Qed.

(** A call that reaches quantization leaves the bytes between the end of
    a row's pixels and the next row as they were. *)
Lemma padding_untouched_by_copy rasterizer temp_alloc glyph_id f fs ox oy t :
  bpp t = 3 -> contours (shape_of f glyph_id) <> [] -> rows_disjoint t ->
  let out := draw rasterizer temp_alloc glyph_id (Some f) fs ox oy (Some t) in
  let rs := row_stride_of t in
  exists t', target_after out = Some t' /\
    forall y k, 0 <= y < height t -> width t * 3 <= k < rs ->
      buffer t' (y * rs + k) = buffer t (y * rs + k).
Proof.
  intros Hbpp Hne Hdisj. cbv zeta.
  destruct (quantized_samples_stored rasterizer temp_alloc glyph_id f fs ox oy t
              Hbpp Hne) as (t' & Ht' & _ & Hall & Hpix).
  exists t'. split; [exact Ht'|]. intros y k Hy Hk.
  destruct (Hall (y * row_stride_of t + k))
    as [[Hsame _] | (x' & y' & c' & Hx' & Hy' & Hc' & Ha & _)]; [exact Hsame|].
  exfalso. destruct (Hpix Hdisj x' y' c' Hx' Hy' Hc') as [Hoff _].
  rewrite Hoff in Ha. destruct Hdisj as [Hrs Hmax].
  assert (y = y' \/ y < y' \/ y' < y) as [-> | [Hlt | Hlt]] by lia; nia.
Qed.

End Rasterizer.

(** ** Two calls with the same inputs *)

(** Two loops whose iterations write the same values to [a] leave the same
    value there. *)
Lemma last_hit_ext {A : Type} (P Q : A -> Z -> option Z) (l : list A) (a : Z) :
  (forall i, i ∈ l -> P i a = Q i a) -> last_hit P l a = last_hit Q l a.
Proof.
  induction l as [|i l IH] using rev_ind; [reflexivity|].
  intros H. rewrite !last_hit_snoc.
  rewrite (H i) by (apply elem_of_app; right; constructor).
  rewrite IH by (intros j Hj; apply H, elem_of_app; left; exact Hj).
  reflexivity.
Qed.

Section Reproducibility.

Context {F32 F64 : Type} {FA : FloatArith F32 F64}.

(** The bytes the copy loops write depend on the samples of the pixels of
    the target only. *)
Lemma image_writes_ext (msdf msdf' : Bitmap F32) (row_stride w h a : Z) :
  (forall x y c, 0 <= x < w -> 0 <= y < h -> 0 <= c < 3 ->
                 msdf' x y c = msdf x y c) ->
  image_writes msdf' row_stride w h a = image_writes msdf row_stride w h a.
Proof.
  intros H. unfold image_writes. apply last_hit_ext. intros y Hy.
  unfold row_writes. apply last_hit_ext. intros x Hx.
  apply elem_of_seqZ in Hy, Hx. unfold pixel_writes.
  rewrite !H by lia. reflexivity.
Qed.

(** Every channel of every pixel of the target is written. *)
Lemma image_writes_pixel (msdf : Bitmap F32) (row_stride w h x y c : Z) :
  0 <= x < w -> 0 <= y < h -> 0 <= c < 3 ->
  exists v, image_writes msdf row_stride w h (pixel_offset row_stride y x + c) = Some v.
Proof.
  intros Hx Hy Hc.
  destruct (image_writes msdf row_stride w h (pixel_offset row_stride y x + c))
    as [v|] eqn:E; [exists v; reflexivity|].
  exfalso. rewrite image_writes_None in E. exact (E x y c Hx Hy Hc eq_refl).
Qed.

Context {hb_font_t skb_rasterizer_t skb_temp_alloc_t : Type}.
Variables glyph_outline glyph_outline' : hb_font_t -> Z -> list (PathCommand F32).
Variables normalize normalize' : Shape F64 -> Shape F64.
Variables edgeColoringSimple edgeColoringSimple' : Shape F64 -> F64 -> Shape F64.
Variables generateMSDF generateMSDF' :
  Z -> Z -> Shape F64 -> Projection F64 -> Range F64 -> Bitmap F32.

(** C7. Two calls with the same glyph id, font, font size, offsets and
    target dimensions and stride, whatever the two buffers hold before and
    whatever is passed for the two unused arguments. The outline source and
    the library of the second call need not be those of the first: it is
    enough that they give the same outline for this glyph, the same
    normalized shape, the same coloring of it for the constant 3.0, the only
    coloring parameter a call ever passes, and the same samples for the
    pixels of the target. Then the calls return the same value and make the
    same library calls with the same arguments; for a glyph with a contour
    every channel of every pixel of the target holds the same byte after
    both calls, for a glyph without contour every byte of the filled range is
    0 after both, every other byte is the same after both or kept by both,
    and bytes that were equal before the calls are equal after them. *)
Theorem same_inputs_same_bytes
    (rasterizer rasterizer' : option skb_rasterizer_t)
    (temp_alloc temp_alloc' : option skb_temp_alloc_t)
    (glyph_id : Z) (f : skb_font_t F32 hb_font_t) (fs ox oy : F32)
    (t1 t2 : skb_image_t) :
  let s := glyph_shape (F64 := F64) glyph_outline f glyph_id in
  let colored := edgeColoringSimple (normalize s) (f64_lit 3 0) in
  let scale := pixel_scale fs (upem_scale f) in
  let out1 :=
    skb_rasterizer_draw_msdf_glyph glyph_outline normalize edgeColoringSimple
      generateMSDF rasterizer temp_alloc glyph_id (Some f) fs ox oy (Some t1) in
  let out2 :=
    skb_rasterizer_draw_msdf_glyph glyph_outline' normalize' edgeColoringSimple'
      generateMSDF' rasterizer' temp_alloc' glyph_id (Some f) fs ox oy (Some t2) in
  same_geometry t1 t2 ->
  glyph_outline' (hb_font f) glyph_id = glyph_outline (hb_font f) glyph_id ->
  normalize' s = normalize s ->
  edgeColoringSimple' (normalize s) (f64_lit 3 0) = colored ->
  (forall x y c, 0 <= x < width t1 -> 0 <= y < height t1 -> 0 <= c < 3 ->
     generateMSDF' (width t1) (height t1) colored
       (make_projection scale ox oy) (make_range scale) x y c =
     generateMSDF (width t1) (height t1) colored
       (make_projection scale ox oy) (make_range scale) x y c) ->
  returned out1 = returned out2 /\
  library_calls out1 = library_calls out2 /\
  (forall s' k, call_edgeColoringSimple s' k ∈ library_calls out1 -> k = f64_lit 3 0) /\
  exists t1' t2', target_after out1 = Some t1' /\ target_after out2 = Some t2' /\
    same_geometry t1' t2' /\
    (bpp t1 = 3 -> contours s <> [] ->
     forall x y c, 0 <= x < width t1 -> 0 <= y < height t1 -> 0 <= c < 3 ->
       buffer t1' (pixel_offset (row_stride_of t1) y x + c) =
       buffer t2' (pixel_offset (row_stride_of t1) y x + c)) /\
    (bpp t1 = 3 -> contours s = [] ->
     forall a, 0 <= a < size_t_of_int (int_mul (int_mul (width t1) (height t1)) 3) ->
       buffer t1' a = 0 /\ buffer t2' a = 0) /\
    (forall a, buffer t1' a = buffer t2' a \/
               (buffer t1' a = buffer t1 a /\ buffer t2' a = buffer t2 a)) /\
    (forall a, buffer t1 a = buffer t2 a -> buffer t1' a = buffer t2' a).
Proof.
  cbv zeta. intros Hgeo Hout Hnorm Hcol Hgen.
  assert (Hshape : glyph_shape (F64 := F64) glyph_outline' f glyph_id =
                   glyph_shape glyph_outline f glyph_id)
    by (unfold glyph_shape, hb_font_draw_glyph; rewrite Hout; reflexivity).
  assert (Hgeo' := Hgeo). destruct Hgeo' as (Hw & Hh & Hs & Hb).
  destruct (Z.eq_dec (bpp t1) 3) as [Hbpp|Hbpp].
  - assert (Hbpp2 : bpp t2 = 3) by congruence.
    destruct (contours (glyph_shape (F64 := F64) glyph_outline f glyph_id))
      as [|c0 cs] eqn:E.
    + rewrite (draw_empty_glyph glyph_outline) by assumption.
      rewrite (draw_empty_glyph glyph_outline') by (rewrite ?Hshape; assumption).
      simpl. rewrite <- Hw, <- Hh.
      split; [reflexivity|]. split; [reflexivity|].
      split; [intros s' k Hin; inversion Hin|].
      eexists _, _. split; [reflexivity|]. split; [reflexivity|].
      split; [repeat split; assumption|]. simpl. unfold memset.
      split; [intros _ Hne; destruct (Hne eq_refl)|].
      split; [|split].
      * intros _ _ a Ha.
        rewrite (proj2 (Z.leb_le 0 a)), (proj2 (Z.ltb_lt a _)) by lia.
        split; reflexivity.
      * intros a. destruct (_ && _); auto.
      * intros a Heq. destruct (_ && _); auto.
    + assert (Hne : contours (glyph_shape (F64 := F64) glyph_outline f glyph_id) <> [])
        by congruence.
      rewrite (draw_glyph glyph_outline) by assumption.
      rewrite (draw_glyph glyph_outline') by (rewrite ?Hshape; assumption).
      simpl. rewrite Hshape, Hnorm, Hcol.
      assert (Hrs : row_stride_of t2 = row_stride_of t1)
        by (unfold row_stride_of; rewrite Hs, Hw; reflexivity).
      rewrite <- Hw, <- Hh, Hrs.
      split; [reflexivity|]. split; [reflexivity|]. split.
      { intros s' k Hin.
        apply elem_of_cons in Hin as [Hin|Hin]; [discriminate|].
        apply elem_of_cons in Hin as [Hin|Hin]; [congruence|].
        apply elem_of_cons in Hin as [Hin|Hin]; [discriminate|inversion Hin]. }
      eexists _, _. split; [reflexivity|]. split; [reflexivity|].
      split; [repeat split; assumption|]. simpl.
      assert (Hwr : forall a,
                image_writes
                  (glyph_field glyph_outline' normalize' edgeColoringSimple'
                     generateMSDF' f glyph_id fs ox oy t2)
                  (row_stride_of t1) (width t1) (height t1) a =
                image_writes
                  (glyph_field glyph_outline normalize edgeColoringSimple
                     generateMSDF f glyph_id fs ox oy t1)
                  (row_stride_of t1) (width t1) (height t1) a).
      { intros a. apply image_writes_ext. intros x y c Hx Hy Hc.
        unfold glyph_field. rewrite Hshape, Hnorm, Hcol, <- Hw, <- Hh.
        apply Hgen; assumption. }
      split; [|split; [intros _ He; discriminate|split]].
      * intros _ _ x y c Hx Hy Hc. rewrite !copy_to_target_spec, Hwr.
        destruct (image_writes_pixel
                    (glyph_field glyph_outline normalize edgeColoringSimple
                       generateMSDF f glyph_id fs ox oy t1)
                    (row_stride_of t1) (width t1) (height t1) x y c Hx Hy Hc)
          as [v Hv].
        rewrite Hv. reflexivity.
      * intros a. rewrite !copy_to_target_spec, Hwr.
        destruct (image_writes _ _ _ _ a); simpl; auto.
      * intros a Heq. rewrite !copy_to_target_spec, Hwr.
        destruct (image_writes _ _ _ _ a); simpl; auto.
  - assert (Hbpp2 : bpp t2 <> 3) by congruence.
    rewrite (draw_precondition_failure glyph_outline) by (right; right; eauto).
    rewrite (draw_precondition_failure glyph_outline') by (right; right; eauto).
    simpl. split; [reflexivity|]. split; [reflexivity|].
    split; [intros s' k Hin; inversion Hin|].
    exists t1, t2. split; [reflexivity|]. split; [reflexivity|].
    split; [exact Hgeo|].
    split; [intros H; destruct (Hbpp H)|]. split; [intros H; destruct (Hbpp H)|].
    split; auto.
Qed.

End Reproducibility.


(** ** Exact arithmetic *)

Section ExactArithmetic.

Local Open Scope Q_scope.

Lemma exact_ltb_true a b : Exact.ltb a b = true <-> a < b.
Proof.
  unfold Exact.ltb. rewrite negb_true_iff. split.
  - intros H. apply Qnot_le_lt. intros Hle. apply Qle_bool_iff in Hle. congruence.
  - intros H. destruct (Qle_bool b a) eqn:E; [|reflexivity].
    apply Qle_bool_iff in E. exfalso. apply (Qlt_not_le _ _ H E).
Qed.

Lemma exact_ltb_false a b : Exact.ltb a b = false <-> b <= a.
Proof. unfold Exact.ltb. rewrite negb_false_iff. apply Qle_bool_iff. Qed.

Lemma exact_clampf a :
  let c := skb_clampf a 0 1 in
  0 <= c <= 1 /\ (a <= 0 -> c == 0) /\ (0 <= a <= 1 -> c == a) /\ (1 <= a -> c == 1).
Proof.
  cbv zeta. unfold skb_clampf, skb_minf, skb_maxf. simpl.
  destruct (Exact.ltb 0 a) eqn:E0.
  - apply exact_ltb_true in E0.
    destruct (Exact.ltb a 1) eqn:E1.
    + apply exact_ltb_true in E1. repeat split; try lra.
    + apply exact_ltb_false in E1. repeat split; try lra.
  - apply exact_ltb_false in E0.
    change (Exact.ltb 0 1) with true. cbv iota.
    repeat split; try lra.
Qed.

Lemma exact_trunc_nonneg v : 0 <= v -> Exact.trunc v = Qfloor v.
Proof.
  intros Hv. unfold Exact.trunc, Qfloor. destruct v as [n d]. simpl.
  apply Z.quot_div_nonneg; [|lia].
  unfold Qle in Hv. simpl in Hv. lia.
Qed.

(** Without rounding, the byte is the integer nearest to 255 times the
    clamped value, and it exceeds 127 exactly for the raw samples that are
    not negative. *)
Lemma exact_quantize r :
  let c := skb_clampf ((1#2) + r * (1#2)) 0 1 in
  let b := quantize r in
  (0 <= b <= 255)%Z /\
  (inject_Z b <= c * 255 + (1#2) /\ c * 255 + (1#2) < inject_Z b + 1) /\
  ((127 < b)%Z <-> 0 <= r).
Proof.
  cbv zeta. unfold quantize. simpl.
  change (Exact.lit 1 (-1)) with (1#2).
  change (Exact.lit 0 0) with 0. change (Exact.lit 1 0) with 1.
  change (Exact.lit 255 0) with 255.
  destruct (exact_clampf ((1#2) + r * (1#2))) as (Hc & Hlo & Hmid & Hhi).
  cbv zeta in Hc, Hlo, Hmid, Hhi.
  generalize dependent (skb_clampf ((1#2) + r * (1#2)) 0 1).
  intros c Hc Hlo Hmid Hhi.
  assert (Hv : 0 <= c * 255 + (1#2)) by lra.
  unfold Exact.to_uint8. rewrite exact_trunc_nonneg by exact Hv.
  assert (Hfl := Qfloor_le (c * 255 + (1#2))).
  assert (Hfu := Qlt_floor (c * 255 + (1#2))).
  generalize dependent (Qfloor (c * 255 + (1#2))). intros z Hfl Hfu.
  rewrite inject_Z_plus in Hfu. change (inject_Z 1) with 1 in Hfu.
  assert (Hz : (0 <= z <= 255)%Z).
  { split.
    - assert (H : inject_Z (-1) < inject_Z z)
        by (change (inject_Z (-1)) with (-1); lra).
      rewrite <- Zlt_Qlt in H. lia.
    - assert (H : inject_Z z < inject_Z 256)
        by (change (inject_Z 256) with 256; lra).
      rewrite <- Zlt_Qlt in H. lia. }
  rewrite Z.mod_small by lia.
  split; [exact Hz|]. split; [lra|]. split.
  - intros Hb.
    assert (H : inject_Z 128 <= inject_Z z) by (rewrite <- Zle_Qle; lia).
    change (inject_Z 128) with 128 in H.
    destruct (Qlt_le_dec r 0) as [Hr|Hr]; [|exact Hr]. exfalso.
    destruct (Qlt_le_dec ((1#2) + r * (1#2)) 0) as [Hn|Hn].
    + assert (c == 0) by (apply Hlo; lra). lra.
    + assert (c == (1#2) + r * (1#2)) by (apply Hmid; lra). lra.
  - intros Hr.
    assert (Hc2 : (1#2) <= c).
    { destruct (Qlt_le_dec 1 ((1#2) + r * (1#2))) as [Hn|Hn].
      - assert (c == 1) by (apply Hhi; lra). lra.
      - assert (c == (1#2) + r * (1#2)) by (apply Hmid; lra). lra. }
    assert (H : inject_Z 127 < inject_Z z)
      by (change (inject_Z 127) with 127; lra).
    rewrite <- Zlt_Qlt in H. exact H.
Qed.

(** Without rounding, scale * (coord + translate) is the offset added to
    the scaled, vertically flipped coordinate. *)
Lemma exact_projection (fs upem ox oy fx fy : Q) :
  let s := pixel_scale fs upem in
  let p := make_projection s ox oy in
  s = fs * upem /\
  (~ s == 0 ->
   vx (project p {| vx := fx; vy := fy |}) == s * fx + ox /\
   vy (project p {| vx := fx; vy := fy |}) == - s * fy + oy) /\
  (0 < s -> 0 < vx (proj_scale p) /\ vy (proj_scale p) < 0).
Proof.
  cbv zeta. unfold pixel_scale, make_projection, project. simpl.
  split; [reflexivity|]. split.
  - generalize (fs * upem). intros s Hs. split; field; exact Hs.
  - intros Hs. split; lra.
Qed.

(** Without rounding, twice the font size gives half the range, and range
    times scale is 4 at every font size. *)
Lemma exact_range (fs upem : Q) :
  let s := pixel_scale fs upem in
  let s2 := pixel_scale (f32_mul (f32_lit 2 0) fs) upem in
  ~ s == 0 ->
  s2 == 2 * s /\
  range_width (make_range s2) == range_width (make_range s) / 2 /\
  range_width (make_range s) * s == 4 /\
  range_width (make_range s2) * s2 == 4.
Proof.
  cbv zeta. unfold pixel_scale, make_range, pxRange. simpl.
  change (Exact.lit 4 0) with 4. change (Exact.lit 2 0) with 2.
  intros Hs.
  assert (Hfs : ~ fs == 0) by (intros E; apply Hs; rewrite E; ring).
  assert (Hup : ~ upem == 0) by (intros E; apply Hs; rewrite E; ring).
  repeat split; try ring; field; auto.
Qed.

End ExactArithmetic.

(** ** IEEE arithmetic *)

(** Rounding, multiplication and division of [SpecFloat] when the exponent
    of an operand moves and no result leaves the normal range. *)
Section ExponentShift.

Variables prec emax : Z.
Hypothesis prec_pos : 0 < prec.

Lemma Zdigits2_nonneg n : 0 <= Zdigits2 n.
Proof. destruct n; simpl; lia. Qed.

Lemma fexp_unclamped d e :
  0 <= d -> emin prec emax + prec <= e -> fexp prec emax (d + e) = d + e - prec.
Proof. unfold fexp. lia. Qed.

Lemma shr_shift mrs e n k :
  shr mrs (e + k) n = (fst (shr mrs e n), snd (shr mrs e n) + k).
Proof. destruct n; simpl; f_equal; lia. Qed.

Lemma shr_exponent_ge mrs e n : e <= snd (shr mrs e n).
Proof. destruct n; simpl; lia. Qed.

Lemma shr_fexp_shift m e l k :
  emin prec emax + prec <= e -> emin prec emax + prec <= e + k ->
  shr_fexp prec emax m (e + k) l =
  (fst (shr_fexp prec emax m e l), snd (shr_fexp prec emax m e l) + k).
Proof.
  intros He Hk. unfold shr_fexp.
  rewrite !fexp_unclamped by (auto using Zdigits2_nonneg).
  replace (Zdigits2 m + (e + k) - prec - (e + k)) with (Zdigits2 m + e - prec - e) by lia.
  apply shr_shift.
Qed.

Lemma shr_fexp_exponent_ge m e l : e <= snd (shr_fexp prec emax m e l).
Proof. apply shr_exponent_ge. Qed.

(** Away from the subnormal range, rounding commutes with a change of
    exponent, as long as the result does not overflow. *)
Lemma binary_round_aux_shift sx mx ex lx k :
  emin prec emax + prec <= ex -> emin prec emax + prec <= ex + k ->
  forall s m e,
    binary_round_aux prec emax sx mx ex lx = S754_finite s m e ->
    e + k <= emax - prec ->
    binary_round_aux prec emax sx mx (ex + k) lx = S754_finite s m (e + k).
Proof.
  intros He Hk s m e. unfold binary_round_aux.
  rewrite (shr_fexp_shift mx ex lx k) by assumption.
  assert (Hge := shr_fexp_exponent_ge mx ex lx).
  destruct (shr_fexp prec emax mx ex lx) as [mrs' e'] eqn:E1. simpl in *.
  rewrite (shr_fexp_shift _ e' loc_Exact k) by lia.
  destruct (shr_fexp prec emax _ e' loc_Exact) as [mrs'' e''] eqn:E2. simpl.
  destruct (shr_m mrs''); try discriminate.
  destruct (e'' <=? emax - prec) eqn:Hle; [|discriminate].
  intros [= <- <- <-] Hok.
  rewrite (proj2 (Z.leb_le _ _)) by exact Hok. reflexivity.
Qed.

Lemma binary_round_aux_finite_exponent sx mx ex lx s m e :
  binary_round_aux prec emax sx mx ex lx = S754_finite s m e -> e <= emax - prec.
Proof.
  unfold binary_round_aux.
  destruct (shr_fexp prec emax mx ex lx) as [mrs' e'].
  destruct (shr_fexp prec emax _ e' loc_Exact) as [mrs'' e''].
  destruct (shr_m mrs''); try discriminate.
  destruct (e'' <=? emax - prec) eqn:Hle; [|discriminate].
  intros [= <- <- <-]. apply Z.leb_le, Hle.
Qed.

Lemma SFmul_shift sx mx ex sy my ey k :
  emin prec emax + prec <= ex + ey -> emin prec emax + prec <= ex + ey + k ->
  forall s m e,
    SFmul prec emax (S754_finite sx mx ex) (S754_finite sy my ey) = S754_finite s m e ->
    e + k <= emax - prec ->
    SFmul prec emax (S754_finite sx mx (ex + k)) (S754_finite sy my ey) =
    S754_finite s m (e + k).
Proof.
  intros He Hk s m e. simpl. intros Hmul Hok.
  replace (ex + k + ey) with (ex + ey + k) by lia.
  apply binary_round_aux_shift; assumption.
Qed.

Lemma SFdiv_core_binary_shift m1 e1 m2 e2 k :
  emin prec emax + prec <= Zdigits2 m1 + e1 - (Zdigits2 m2 + e2) ->
  emin prec emax + prec <= Zdigits2 m1 + e1 - (Zdigits2 m2 + e2) - k ->
  SFdiv_core_binary prec emax m1 e1 m2 (e2 + k) =
  let '(q, e', l) := SFdiv_core_binary prec emax m1 e1 m2 e2 in (q, e' - k, l).
Proof.
  intros He Hk. unfold SFdiv_core_binary, fexp.
  replace (Z.min (Z.max (Zdigits2 m1 + e1 - (Zdigits2 m2 + (e2 + k)) - prec)
                   (emin prec emax)) (e1 - (e2 + k)))
    with (Z.min (Z.max (Zdigits2 m1 + e1 - (Zdigits2 m2 + e2) - prec)
                   (emin prec emax)) (e1 - e2) - k) by lia.
  set (e' := Z.min _ (e1 - e2)).
  replace (e1 - (e2 + k) - (e' - k)) with (e1 - e2 - e') by lia.
  destruct (Z.div_eucl _ m2). reflexivity.
Qed.

(** Away from the subnormal range, moving the exponent of the divisor up
    moves the exponent of the quotient down by as much. *)
Lemma SFdiv_shift sx mx ex sy my ey k :
  0 <= k ->
  emin prec emax + 2 * prec <=
    Zdigits2 (Zpos mx) + ex - (Zdigits2 (Zpos my) + ey) - k ->
  emin prec emax + prec <= ex - ey - k ->
  forall s m e,
    SFdiv prec emax (S754_finite sx mx ex) (S754_finite sy my ey) = S754_finite s m e ->
    SFdiv prec emax (S754_finite sx mx ex) (S754_finite sy my (ey + k)) =
    S754_finite s m (e - k).
Proof.
  intros Hk0 HX He s m e. simpl.
  rewrite SFdiv_core_binary_shift by lia.
  assert (Hez : forall q e' l, SFdiv_core_binary prec emax (Z.pos mx) ex (Z.pos my) ey
                               = (q, e', l) ->
                 e' = Z.min (fexp prec emax (Zdigits2 (Zpos mx) + ex -
                                             (Zdigits2 (Zpos my) + ey))) (ex - ey)).
  { unfold SFdiv_core_binary. intros q e' l.
    destruct (Z.div_eucl _ (Z.pos my)). intros [= _ <- _]. reflexivity. }
  destruct (SFdiv_core_binary prec emax (Z.pos mx) ex (Z.pos my) ey)
    as [[q e'] l] eqn:E.
  specialize (Hez q e' l eq_refl). unfold fexp in Hez.
  intros Hdiv.
  assert (Hmax := binary_round_aux_finite_exponent _ _ _ _ _ _ _ Hdiv).
  replace (e' - k) with (e' + - k) by lia.
  replace (e - k) with (e + - k) by lia.
  apply binary_round_aux_shift; try assumption; lia.
Qed.

End ExponentShift.

Lemma bounded_digits prec emax m e :
  bounded prec emax m e = true -> Zpos (digits2_pos m) <= prec.
Proof.
  unfold bounded, canonical_mantissa, fexp.
  intros [H _]%andb_prop. apply Z.eqb_eq in H. lia.
Qed.

Lemma ieee_range_halves (sg : bool) (M : positive) (E : Z) :
  bounded IEEE.prec64 IEEE.emax64 M E = true -> E <= 917 ->
  forall sr mr er,
    range_width (make_range (S754_finite sg M E : IEEE.double)) = S754_finite sr mr er ->
    range_width (make_range (S754_finite sg M (E + 1) : IEEE.double)) =
    S754_finite sr mr (er - 1).
Proof.
  intros Hb HE sr mr er. apply bounded_digits in Hb.
  change (SFdiv 53 1024 (S754_finite false 4503599627370496 (-50))
            (S754_finite sg M E) = S754_finite sr mr er ->
          SFdiv 53 1024 (S754_finite false 4503599627370496 (-50))
            (S754_finite sg M (E + 1)) = S754_finite sr mr (er - 1)).
  apply SFdiv_shift; unfold IEEE.prec64, emin in *; simpl; lia.
Qed.

Lemma ieee_double_float (sf : bool) (mf : positive) (ef : Z) :
  digits2_pos mf = 24%positive -> -149 <= ef -> ef + 1 <= 104 ->
  SFmul IEEE.prec32 IEEE.emax32 (IEEE.lit32 2 0) (S754_finite sf mf ef) =
  S754_finite sf mf (ef + 1).
Proof.
  intros Hd Hlo Hhi.
  change (IEEE.lit32 2 0) with (S754_finite false 8388608 (-22)).
  unfold SFmul, IEEE.prec32, IEEE.emax32. cbn [xorb].
  change (8388608 * mf)%positive with (Pos.iter xO mf 23).
  assert (Hd2 : Zdigits2 (Zpos (Pos.iter xO mf 23)) = 47).
  { change (Zpos (Pos.iter Pos.succ (digits2_pos mf) 23) = 47). rewrite Hd. reflexivity. }
  unfold binary_round_aux, shr_fexp. rewrite Hd2. unfold fexp, emin.
  replace (Z.max (47 + (-22 + ef) - 24) (3 - 128 - 24) - (-22 + ef)) with 23 by lia.
  change (shr (shr_record_of_loc (Zpos (Pos.iter xO mf 23)) loc_Exact) (-22 + ef) 23)
    with ({| shr_m := Zpos mf; shr_r := false; shr_s := false |}, -22 + ef + 23).
  cbn [shr_m loc_of_shr_record round_nearest_even shr_record_of_loc].
  change (Zdigits2 (Zpos mf)) with (Zpos (digits2_pos mf)). rewrite Hd.
  replace (Z.max (24 + (-22 + ef + 23) - 24) (3 - 128 - 24) - (-22 + ef + 23))
    with 0 by lia.
  cbn [shr shr_m].
  rewrite (proj2 (Z.leb_le _ _)) by lia.
  f_equal. lia.
Qed.

Lemma digits2_pos_iter_xO m p :
  digits2_pos (Pos.iter xO m p) = (digits2_pos m + p)%positive.
Proof.
  induction p as [|p IH] using Pos.peano_ind.
  - simpl. rewrite Pos.add_1_r. reflexivity.
  - rewrite Pos.iter_succ. simpl. rewrite IH, Pos.add_succ_r. reflexivity.
Qed.

Lemma binary_round_aux_canonical prec emax s m e :
  Zpos (digits2_pos m) = prec -> emin prec emax <= e -> e <= emax - prec ->
  binary_round_aux prec emax s (Zpos m) e loc_Exact = S754_finite s m e.
Proof.
  intros Hd Hlo Hhi. unfold binary_round_aux, shr_fexp, fexp.
  cbn [Zdigits2 shr_record_of_loc]. rewrite Hd.
  replace (Z.max (prec + e - prec) (emin prec emax) - e) with 0 by lia.
  cbn [shr shr_m loc_of_shr_record round_nearest_even Zdigits2]. rewrite Hd.
  replace (Z.max (prec + e - prec) (emin prec emax) - e) with 0 by lia.
  cbn [shr shr_m shr_record_of_loc].
  rewrite (proj2 (Z.leb_le _ _)) by exact Hhi. reflexivity.
Qed.

(** A binary32 number as a binary64 number: the same value with a mantissa
    of 53 bits. *)
Lemma to_double_finite s m e :
  Zpos (digits2_pos m) <= 24 -> -149 <= e <= 104 ->
  let p := (53 - digits2_pos m)%positive in
  IEEE.to_double (S754_finite s m e) = S754_finite s (Pos.iter xO m p) (e - Zpos p) /\
  bounded IEEE.prec64 IEEE.emax64 (Pos.iter xO m p) (e - Zpos p) = true.
Proof.
  intros Hd He p.
  assert (Hp : Zpos p = 53 - Zpos (digits2_pos m)) by (unfold p; lia).
  assert (HdM : Zpos (digits2_pos (Pos.iter xO m p)) = 53)
    by (rewrite digits2_pos_iter_xO; lia).
  split.
  - unfold IEEE.to_double, binary_normalize, IEEE.prec64, IEEE.emax64.
    assert (Hround : forall b, binary_round 53 1024 b m e =
                               S754_finite b (Pos.iter xO m p) (e - Zpos p)).
    { intros b. unfold binary_round, shl_align, fexp, emin.
      replace (Z.max (Zpos (digits2_pos m) + e - 53) (3 - 1024 - 53) - e)
        with (Zneg p) by lia.
      replace (Z.max (Zpos (digits2_pos m) + e - 53) (3 - 1024 - 53))
        with (e - Zpos p) by lia.
      apply binary_round_aux_canonical; unfold emin; lia. }
    destruct s; simpl; apply Hround.
  - unfold bounded, canonical_mantissa, fexp, emin, IEEE.prec64, IEEE.emax64.
    rewrite HdM. apply andb_true_intro. split; [apply Z.eqb_eq | apply Z.leb_le]; lia.
Qed.

(** On binary32 and binary64 numbers: a normal font size whose double is
    finite, a product [font_size * upem_scale] that is a finite number away
    from underflow and from the largest exponent. Then twice the font size
    gives twice the scale, and the range keeps its mantissa and loses one
    in the exponent: it is exactly half. *)
Lemma ieee_double_font_size_halves_range
    (sf su sg sr : bool) (mf mu m mr : positive) (ef eu e er : Z) :
  let fs : IEEE.float := S754_finite sf mf ef in
  let upem : IEEE.float := S754_finite su mu eu in
  let fs2 := f32_mul (f32_lit 2 0) fs in
  digits2_pos mf = 24%positive -> -149 <= ef <= 103 ->
  -125 <= ef + eu ->
  f32_mul fs upem = S754_finite sg m e ->
  bounded IEEE.prec32 IEEE.emax32 m e = true -> e <= 103 ->
  range_width (make_range (pixel_scale fs upem)) = S754_finite sr mr er ->
  f32_mul fs2 upem = S754_finite sg m (e + 1) /\
  range_width (make_range (pixel_scale fs2 upem)) = S754_finite sr mr (er - 1).
Proof.
  cbv zeta. unfold pixel_scale.
  cbn [f32_mul f32_lit f64_of_f32 IEEE.arith].
  intros Hnorm Hef Hsum Hprod Hb He Hrange.
  assert (Hd := bounded_digits _ _ _ _ Hb). unfold IEEE.prec32 in Hd.
  assert (Hlo : -149 <= e).
  { unfold bounded, canonical_mantissa, fexp, emin, IEEE.prec32, IEEE.emax32 in Hb.
    apply andb_prop in Hb as [Hc _]. apply Z.eqb_eq in Hc. lia. }
  rewrite ieee_double_float by lia.
  assert (Hprod2 : SFmul IEEE.prec32 IEEE.emax32 (S754_finite sf mf (ef + 1))
                     (S754_finite su mu eu) = S754_finite sg m (e + 1)).
  { apply SFmul_shift; try exact Hprod;
      unfold emin, IEEE.prec32, IEEE.emax32; lia. }
  split; [exact Hprod2|].
  rewrite Hprod2. rewrite Hprod in Hrange.
  destruct (to_double_finite sg m e Hd ltac:(lia)) as [Hs Hbs].
  destruct (to_double_finite sg m (e + 1) Hd ltac:(lia)) as [Hs2 _].
  rewrite Hs in Hrange. rewrite Hs2.
  replace (e + 1 - Zpos (53 - digits2_pos m)) with (e - Zpos (53 - digits2_pos m) + 1)
    by lia.
  apply ieee_range_halves; try assumption. lia.
Qed.


(** The clamp saturates: a remapped value that is not above 0, NaN
    included, gives the byte 0, and one that is above 0 and not below 1 gives
    255. *)
Lemma ieee_quantize_saturates (r : IEEE.float) :
  let nr := f32_add (f32_lit 1 (-1)) (f32_mul r (f32_lit 1 (-1))) in
  (f32_lt (f32_lit 0 0) nr = false -> quantize r = 0) /\
  (f32_lt (f32_lit 0 0) nr = true -> f32_lt nr (f32_lit 1 0) = false ->
   quantize r = 255).
Proof.
  cbv zeta. unfold quantize, skb_clampf, skb_minf, skb_maxf.
  set (nr := f32_add (f32_lit 1 (-1)) (f32_mul r (f32_lit 1 (-1)))).
  split.
  - intros ->. reflexivity.
  - intros -> ->. reflexivity.
Qed.

(** The scale vector of the projection is (s, -s): positive across and
    negative down when [s] is positive. *)
Lemma ieee_scale_signs (s : IEEE.double) (ox oy : IEEE.float) :
  let p := make_projection s ox oy in
  SFltb (IEEE.lit64 0 0) s = true ->
  SFltb (IEEE.lit64 0 0) (vx (proj_scale p)) = true /\
  SFltb (vy (proj_scale p)) (IEEE.lit64 0 0) = true.
Proof.
  cbv zeta. simpl.
  destruct s as [ [|] | [|] | | [|] m e]; simpl; try discriminate; auto.
Qed.

(** ** Quantization, projection and range of a call *)

(** C1. In a call that reaches quantization (font and target given, 3 bytes
    per pixel, a shape with at least one contour) every byte written is
    [(uint8_t)(clamp(0.5 + r*0.5, 0, 1) * 255 + 0.5)] for the raw sample [r]
    of a pixel and channel stored at that address, each channel by itself,
    and every other byte is left as it was; when the rows do not overlap,
    the byte of pixel (x, y) and channel c at [y*row_stride + x*3 + c] is
    the one computed from its own sample. Without rounding error the byte is
    the integer nearest to 255 times the clamped value (the cast truncates
    after 0.5 was added) and it exceeds 127 exactly when the raw sample is
    not negative; on binary32 the samples 0, 1 and 0.5 give 128, 255 and
    191, -1 and -0.5 give 0 and 64, NaN, +infinity and -infinity give 0,
    255 and 0, and of the two negative samples -2^-20 and -2^-30 the first
    gives 127 and the second, lost in the rounding of 0.5 + r*0.5, gives
    128; a remapped value 0.5 + r*0.5 that is not above 0 gives 0 and one
    that is not below 1 gives 255. *)
Theorem stored_bytes_are_quantized_samples :
  (forall (F32 F64 : Type) (FA : FloatArith F32 F64)
          (hb_font_t skb_rasterizer_t skb_temp_alloc_t : Type)
          (glyph_outline : hb_font_t -> Z -> list (PathCommand F32))
          (normalize : Shape F64 -> Shape F64)
          (edgeColoringSimple : Shape F64 -> F64 -> Shape F64)
          (generateMSDF :
             Z -> Z -> Shape F64 -> Projection F64 -> Range F64 -> Bitmap F32)
          (rasterizer : option skb_rasterizer_t)
          (temp_alloc : option skb_temp_alloc_t)
          (glyph_id : Z) (f : skb_font_t F32 hb_font_t)
          (font_size offset_x offset_y : F32) (t : skb_image_t),
     bpp t = 3 -> contours (glyph_shape glyph_outline f glyph_id) <> [] ->
     let out :=
       skb_rasterizer_draw_msdf_glyph glyph_outline normalize edgeColoringSimple
         generateMSDF rasterizer temp_alloc glyph_id (Some f)
         font_size offset_x offset_y (Some t) in
     let raw :=
       glyph_field glyph_outline normalize edgeColoringSimple generateMSDF
         f glyph_id font_size offset_x offset_y t in
     let rs := row_stride_of t in
     let byte_of (r : F32) :=
       f32_to_uint8
         (f32_add
            (f32_mul
               (skb_clampf (f32_add (f32_lit 1 (-1)) (f32_mul r (f32_lit 1 (-1))))
                  (f32_lit 0 0) (f32_lit 1 0))
               (f32_lit 255 0))
            (f32_lit 1 (-1))) in
     exists t', target_after out = Some t' /\
       (forall a,
          (buffer t' a = buffer t a /\
           forall x y c, 0 <= x < width t -> 0 <= y < height t -> 0 <= c < 3 ->
                         a <> pixel_offset rs y x + c) \/
          (exists x y c, 0 <= x < width t /\ 0 <= y < height t /\ 0 <= c < 3 /\
                         a = pixel_offset rs y x + c /\
                         buffer t' a = byte_of (raw x y c))) /\
       (rows_disjoint t ->
        forall x y c, 0 <= x < width t -> 0 <= y < height t -> 0 <= c < 3 ->
          buffer t' (y * rs + x * 3 + c) = byte_of (raw x y c))) /\
  (forall r : Q,
     let c := skb_clampf ((1#2) + r * (1#2))%Q 0%Q 1%Q in
     let b := quantize r in
     0 <= b <= 255 /\
     (inject_Z b <= c * 255 + (1#2) /\ c * 255 + (1#2) < inject_Z b + 1)%Q /\
     (127 < b <-> (0 <= r)%Q)) /\
  map quantize
    [IEEE.lit32 0 0; IEEE.lit32 1 0; IEEE.lit32 1 (-1);
     IEEE.lit32 (-1) 0; IEEE.lit32 (-1) (-1);
     S754_nan; S754_infinity false; S754_infinity true;
     IEEE.lit32 (-1) (-20); IEEE.lit32 (-1) (-30)] =
  [128; 255; 191; 0; 64; 0; 255; 0; 127; 128] /\
  (forall r : IEEE.float,
     let nr := f32_add (f32_lit 1 (-1)) (f32_mul r (f32_lit 1 (-1))) in
     (f32_lt (f32_lit 0 0) nr = false -> quantize r = 0) /\
     (f32_lt (f32_lit 0 0) nr = true -> f32_lt nr (f32_lit 1 0) = false ->
      quantize r = 255)).
Proof.
  split; [|split; [exact exact_quantize | split;
                   [reflexivity | exact ieee_quantize_saturates]]].
  intros F32 F64 FA hb_font_t skb_rasterizer_t skb_temp_alloc_t glyph_outline
    normalize edgeColoringSimple generateMSDF rasterizer temp_alloc glyph_id f
    font_size offset_x offset_y t Hbpp Hne. cbv zeta.
  destruct (quantized_samples_stored glyph_outline normalize edgeColoringSimple
              generateMSDF rasterizer temp_alloc glyph_id f font_size offset_x
              offset_y t Hbpp Hne) as (t' & Ht' & _ & Hall & Hpix).
  exists t'. split; [exact Ht'|]. split; [exact Hall|].
  intros Hdisj x y c Hx Hy Hc. exact (proj2 (Hpix Hdisj x y c Hx Hy Hc)).
Qed.

(** C4 on the empty-glyph branch. A 1x2 target with a stride of 4 bytes,
    filled with 0xAA, and a glyph without outline: the call returns true,
    the byte at offset 3, the padding of row 0, is overwritten with 0, and
    the byte at offset 6, the last channel of pixel (0, 1), keeps 0xAA. The
    loop of the other branch, run on the same target for a glyph with a
    contour, writes offsets 0-2 and 4-6 and leaves 3 and 7 alone. *)
Theorem empty_glyph_fill_overwrites_row_padding :
  let t := Fixture.image 1 2 4 in
  contours (glyph_shape Fixture.outline Fixture.font 0) = [] /\
  width t * 3 < stride_bytes t /\
  returned (Fixture.rasterize 0 t) = true /\
  map (buffer t) (seqZ 0 8) = [170; 170; 170; 170; 170; 170; 170; 170] /\
  Fixture.bytes_after (Fixture.rasterize 0 t) 8 = [0; 0; 0; 0; 0; 0; 170; 170] /\
  Fixture.bytes_after (Fixture.rasterize 1 t) 8 = [0; 64; 128; 170; 64; 128; 191; 170].
Proof. cbv zeta. repeat split. Qed.

(** C5. The projection handed to the field generation, built once in a
    call, has the scale vector (s, -s) and the translation
    (offset_x / s, -offset_y / s) with s = (double)(font_size * upem_scale):
    it depends on the font size, the font's scale factor and the two
    offsets only. For positive s the horizontal scale is positive and the
    vertical scale negative, on IEEE doubles and on exact numbers; without
    rounding error and for s not 0, scale * (coord + translate) maps
    (fx, fy) to (s*fx + offset_x, -s*fy + offset_y). *)
Theorem projection_scales_flips_and_offsets :
  (forall (F32 F64 : Type) (FA : FloatArith F32 F64)
          (hb_font_t skb_rasterizer_t skb_temp_alloc_t : Type)
          (glyph_outline : hb_font_t -> Z -> list (PathCommand F32))
          (normalize : Shape F64 -> Shape F64)
          (edgeColoringSimple : Shape F64 -> F64 -> Shape F64)
          (generateMSDF :
             Z -> Z -> Shape F64 -> Projection F64 -> Range F64 -> Bitmap F32)
          (rasterizer : option skb_rasterizer_t)
          (temp_alloc : option skb_temp_alloc_t)
          (glyph_id : Z) (f : skb_font_t F32 hb_font_t)
          (font_size offset_x offset_y : F32) (t : skb_image_t),
     bpp t = 3 -> contours (glyph_shape glyph_outline f glyph_id) <> [] ->
     let out :=
       skb_rasterizer_draw_msdf_glyph glyph_outline normalize edgeColoringSimple
         generateMSDF rasterizer temp_alloc glyph_id (Some f)
         font_size offset_x offset_y (Some t) in
     let s := f64_of_f32 (f32_mul font_size (upem_scale f)) in
     exists s0 s1 k s2 rg,
       library_calls out =
         [ call_normalize s0; call_edgeColoringSimple s1 k;
           call_generateMSDF (width t) (height t) s2
             {| proj_scale := {| vx := s; vy := f64_neg s |};
                proj_translate :=
                  {| vx := f64_div (f64_of_f32 offset_x) s;
                     vy := f64_div (f64_of_f32 (f32_neg offset_y)) s |} |}
             rg ]) /\
  (forall font_size upem offset_x offset_y fx fy : Q,
     let s := pixel_scale font_size upem in
     let p := make_projection s offset_x offset_y in
     s = (font_size * upem)%Q /\
     (~ (s == 0)%Q ->
      (vx (project p {| vx := fx; vy := fy |}) == s * fx + offset_x)%Q /\
      (vy (project p {| vx := fx; vy := fy |}) == - s * fy + offset_y)%Q) /\
     ((0 < s)%Q -> (0 < vx (proj_scale p))%Q /\ (vy (proj_scale p) < 0)%Q)) /\
  (forall (s : IEEE.double) (offset_x offset_y : IEEE.float),
     let p := make_projection s offset_x offset_y in
     SFltb (IEEE.lit64 0 0) s = true ->
     SFltb (IEEE.lit64 0 0) (vx (proj_scale p)) = true /\
     SFltb (vy (proj_scale p)) (IEEE.lit64 0 0) = true).
Proof.
  split; [|split; [exact exact_projection | exact ieee_scale_signs]].
  intros F32 F64 FA hb_font_t skb_rasterizer_t skb_temp_alloc_t glyph_outline
    normalize edgeColoringSimple generateMSDF rasterizer temp_alloc glyph_id f
    font_size offset_x offset_y t Hbpp Hne. cbv zeta.
  rewrite draw_glyph by assumption. simpl.
  eexists _, _, _, _, _. reflexivity.
Qed.

(** C6. The range handed to the field generation is the constant 4.0 (the
    gradient width in pixels) divided by the pixel scale
    s = (double)(font_size * upem_scale), for every glyph and offset.
    Without rounding error and for s not 0, twice the font size gives
    exactly half the range, and range times scale is 4 pixels at every font
    size. On binary32 and binary64 numbers, for a normal font size and a
    product font_size * upem_scale that neither underflows nor reaches the
    largest exponent, twice the font size gives twice the scale and a range
    with the same mantissa and an exponent one less: exactly half. *)
Theorem range_is_four_pixels_over_scale :
  (forall (F32 F64 : Type) (FA : FloatArith F32 F64)
          (hb_font_t skb_rasterizer_t skb_temp_alloc_t : Type)
          (glyph_outline : hb_font_t -> Z -> list (PathCommand F32))
          (normalize : Shape F64 -> Shape F64)
          (edgeColoringSimple : Shape F64 -> F64 -> Shape F64)
          (generateMSDF :
             Z -> Z -> Shape F64 -> Projection F64 -> Range F64 -> Bitmap F32)
          (rasterizer : option skb_rasterizer_t)
          (temp_alloc : option skb_temp_alloc_t)
          (glyph_id : Z) (f : skb_font_t F32 hb_font_t)
          (font_size offset_x offset_y : F32) (t : skb_image_t),
     bpp t = 3 -> contours (glyph_shape glyph_outline f glyph_id) <> [] ->
     let out :=
       skb_rasterizer_draw_msdf_glyph glyph_outline normalize edgeColoringSimple
         generateMSDF rasterizer temp_alloc glyph_id (Some f)
         font_size offset_x offset_y (Some t) in
     let s := f64_of_f32 (f32_mul font_size (upem_scale f)) in
     exists s0 s1 k s2 p,
       library_calls out =
         [ call_normalize s0; call_edgeColoringSimple s1 k;
           call_generateMSDF (width t) (height t) s2 p
             {| range_width := f64_div (f64_lit 4 0) s |} ]) /\
  (forall font_size upem : Q,
     let s := pixel_scale font_size upem in
     let s' := pixel_scale (2 * font_size)%Q upem in
     ~ (s == 0)%Q ->
     (s' == 2 * s)%Q /\
     (range_width (make_range s') == range_width (make_range s) / 2)%Q /\
     (range_width (make_range s) * s == 4)%Q /\
     (range_width (make_range s') * s' == 4)%Q) /\
  (forall (sf su sg sr : bool) (mf mu m mr : positive) (ef eu e er : Z),
     let font_size : IEEE.float := S754_finite sf mf ef in
     let upem : IEEE.float := S754_finite su mu eu in
     let font_size2 := f32_mul (f32_lit 2 0) font_size in
     digits2_pos mf = 24%positive -> -149 <= ef <= 103 ->
     -125 <= ef + eu ->
     f32_mul font_size upem = S754_finite sg m e ->
     bounded IEEE.prec32 IEEE.emax32 m e = true -> e <= 103 ->
     range_width (make_range (pixel_scale font_size upem)) = S754_finite sr mr er ->
     f32_mul font_size2 upem = S754_finite sg m (e + 1) /\
     range_width (make_range (pixel_scale font_size2 upem)) =
       S754_finite sr mr (er - 1)).
Proof.
  split; [|split; [exact exact_range | exact ieee_double_font_size_halves_range]].
  intros F32 F64 FA hb_font_t skb_rasterizer_t skb_temp_alloc_t glyph_outline
    normalize edgeColoringSimple generateMSDF rasterizer temp_alloc glyph_id f
    font_size offset_x offset_y t Hbpp Hne. cbv zeta.
  rewrite draw_glyph by assumption. simpl.
  eexists _, _, _, _, _. reflexivity.
Qed.

(** ** The statements at work on the small font *)

Lemma stored_bytes_are_quantized_samples_witness :
  bpp (Fixture.image 2 2 8) = 3 /\
  contours (glyph_shape Fixture.outline Fixture.font 2) <> [] /\
  rows_disjoint (Fixture.image 2 2 8) /\
  exists t', target_after (Fixture.rasterize 2 (Fixture.image 2 2 8)) = Some t' /\
             buffer t' (1 * 8 + 1 * 3 + 2) = 255.
Proof.
  assert (Hb : bpp (Fixture.image 2 2 8) = 3) by reflexivity.
  assert (Hne : contours (glyph_shape Fixture.outline Fixture.font 2) <> [])
    by (vm_compute; discriminate).
  assert (Hd : rows_disjoint (Fixture.image 2 2 8))
    by (unfold rows_disjoint, row_stride_of, INT_MAX; simpl; lia).
  split; [exact Hb|]. split; [exact Hne|]. split; [exact Hd|].
  destruct (proj1 stored_bytes_are_quantized_samples _ _ _ _ unit unit
              Fixture.outline Fixture.normalize Fixture.edgeColoringSimple
              Fixture.generateMSDF None None 2 Fixture.font (IEEE.lit32 16 0)
              Fixture.zero Fixture.zero (Fixture.image 2 2 8) Hb Hne)
    as (t' & Ht' & _ & Hpix).
  exists t'. split; [exact Ht'|].
  refine (eq_trans (Hpix Hd 1 1 2 _ _ _) _);
    [simpl; lia | simpl; lia | lia | reflexivity].
Defined.

Lemma empty_glyph_zero_fill_witness :
  bpp (Fixture.image 2 2 6) = 3 /\
  contours (glyph_shape Fixture.outline Fixture.font 0) = [] /\
  returned (Fixture.rasterize 0 (Fixture.image 2 2 6)) = true /\
  library_calls (Fixture.rasterize 0 (Fixture.image 2 2 6)) = [].
Proof.
  assert (Hb : bpp (Fixture.image 2 2 6) = 3) by reflexivity.
  assert (He : contours (glyph_shape Fixture.outline Fixture.font 0) = [])
    by reflexivity.
  split; [exact Hb|]. split; [exact He|].
  destruct (proj2 (empty_glyph_zero_fill (skb_rasterizer_t := unit)
                     (skb_temp_alloc_t := unit)
                     Fixture.outline Fixture.normalize Fixture.edgeColoringSimple
                     Fixture.generateMSDF None None 0 Fixture.font
                     (IEEE.lit32 16 0) Fixture.zero Fixture.zero
                     (Fixture.image 2 2 6)) Hb He) as (Hr & Hc & _).
  split; [exact Hr | exact Hc].
Defined.

Lemma returns_false_iff_precondition_violated_witness :
  let t := {| buffer := Fixture.sentinel; width := 2; height := 2;
              stride_bytes := 8; bpp := 4 |} in
  let out :=
    skb_rasterizer_draw_msdf_glyph (skb_rasterizer_t := unit)
      (skb_temp_alloc_t := unit)
      Fixture.outline Fixture.normalize Fixture.edgeColoringSimple
      Fixture.generateMSDF None None 2 (Some Fixture.font) (IEEE.lit32 16 0)
      Fixture.zero Fixture.zero (Some t) in
  bpp t <> 3 /\ returned out = false /\ target_after out = Some t /\
  library_calls out = [].
Proof.
  cbv zeta.
  set (t := {| buffer := Fixture.sentinel; width := 2; height := 2;
               stride_bytes := 8; bpp := 4 |}).
  assert (Hb : bpp t <> 3) by (simpl; lia).
  assert (Hv : Some Fixture.font = None \/ Some t = None \/
               (exists t', Some t = Some t' /\ bpp t' <> 3))
    by (right; right; exists t; split; [reflexivity | exact Hb]).
  destruct (returns_false_iff_precondition_violated (skb_rasterizer_t := unit)
              (skb_temp_alloc_t := unit)
              Fixture.outline Fixture.normalize Fixture.edgeColoringSimple
              Fixture.generateMSDF None None 2 (Some Fixture.font)
              (IEEE.lit32 16 0) Fixture.zero Fixture.zero (Some t))
    as (Hiff & Hleft & _).
  split; [exact Hb|]. split; [exact (proj2 Hiff Hv)|]. exact (Hleft Hv).
Defined.

Lemma projection_scales_flips_and_offsets_witness :
  bpp (Fixture.image 2 2 8) = 3 /\
  contours (glyph_shape Fixture.outline Fixture.font 2) <> [] /\
  (exists s0 s1 k s2 rg,
     library_calls (Fixture.rasterize 2 (Fixture.image 2 2 8)) =
       [ call_normalize s0; call_edgeColoringSimple s1 k;
         call_generateMSDF 2 2 s2
           {| proj_scale := {| vx := IEEE.lit64 1 (-6); vy := IEEE.lit64 (-1) (-6) |};
              proj_translate := {| vx := S754_zero false; vy := S754_zero true |} |}
           rg ]) /\
  (0 < pixel_scale 16 (1 # 1024))%Q /\
  (vx (project (make_projection (pixel_scale 16 (1 # 1024)) 3 5)
         {| vx := 640; vy := 128 |}) == 13)%Q /\
  (vy (project (make_projection (pixel_scale 16 (1 # 1024)) 3 5)
         {| vx := 640; vy := 128 |}) == 3)%Q.
Proof.
  assert (Hb : bpp (Fixture.image 2 2 8) = 3) by reflexivity.
  assert (Hne : contours (glyph_shape Fixture.outline Fixture.font 2) <> [])
    by (vm_compute; discriminate).
  assert (Hpos : (0 < pixel_scale 16 (1 # 1024))%Q) by reflexivity.
  assert (Hnz : ~ (pixel_scale 16 (1 # 1024) == 0)%Q) by (vm_compute; discriminate).
  split; [exact Hb|]. split; [exact Hne|]. split; [|split; [exact Hpos|]].
  - exact (proj1 projection_scales_flips_and_offsets _ _ _ _ unit unit
             Fixture.outline Fixture.normalize Fixture.edgeColoringSimple
             Fixture.generateMSDF None None 2 Fixture.font (IEEE.lit32 16 0)
             Fixture.zero Fixture.zero (Fixture.image 2 2 8) Hb Hne).
  - destruct (proj1 (proj2 projection_scales_flips_and_offsets)
                16%Q (1 # 1024)%Q 3%Q 5%Q 640%Q 128%Q) as (_ & Hmap & _).
    destruct (Hmap Hnz) as [Hx Hy]. split.
    + rewrite Hx. reflexivity.
    + rewrite Hy. reflexivity.
Defined.

Lemma range_is_four_pixels_over_scale_witness :
  bpp (Fixture.image 2 2 8) = 3 /\
  contours (glyph_shape Fixture.outline Fixture.font 2) <> [] /\
  (exists s0 s1 k s2 p,
     library_calls (Fixture.rasterize 2 (Fixture.image 2 2 8)) =
       [ call_normalize s0; call_edgeColoringSimple s1 k;
         call_generateMSDF 2 2 s2 p {| range_width := IEEE.lit64 256 0 |} ]) /\
  ~ (pixel_scale 16 (1 # 1024) == 0)%Q /\
  (range_width (make_range (pixel_scale (2 * 16) (1 # 1024))) ==
   range_width (make_range (pixel_scale 16 (1 # 1024))) / 2)%Q /\
  range_width (make_range (pixel_scale (IEEE.lit32 16 0) (IEEE.lit32 1 (-10)))) =
    IEEE.lit64 256 0 /\
  range_width
    (make_range
       (pixel_scale (f32_mul (f32_lit 2 0) (IEEE.lit32 16 0)) (IEEE.lit32 1 (-10)))) =
    IEEE.lit64 128 0.
Proof.
  assert (Hb : bpp (Fixture.image 2 2 8) = 3) by reflexivity.
  assert (Hne : contours (glyph_shape Fixture.outline Fixture.font 2) <> [])
    by (vm_compute; discriminate).
  assert (Hnz : ~ (pixel_scale 16 (1 # 1024) == 0)%Q) by (vm_compute; discriminate).
  assert (Hr : range_width (make_range (pixel_scale (IEEE.lit32 16 0)
                                          (IEEE.lit32 1 (-10)))) =
               IEEE.lit64 256 0) by reflexivity.
  split; [exact Hb|]. split; [exact Hne|].
  split; [|split; [exact Hnz|split; [|split; [exact Hr|]]]].
  - exact (proj1 range_is_four_pixels_over_scale _ _ _ _ unit unit
             Fixture.outline Fixture.normalize Fixture.edgeColoringSimple
             Fixture.generateMSDF None None 2 Fixture.font (IEEE.lit32 16 0)
             Fixture.zero Fixture.zero (Fixture.image 2 2 8) Hb Hne).
  - exact (proj1 (proj2 (proj1 (proj2 range_is_four_pixels_over_scale)
                           16%Q (1 # 1024)%Q Hnz))).
  - refine (proj2 (proj2 (proj2 range_is_four_pixels_over_scale)
                     false false false false 8388608%positive 8388608%positive
                     8388608%positive 4503599627370496%positive
                     (-19) (-33) (-29) (-44)
                     _ _ _ _ _ _ _)).
    + reflexivity.
    + lia.
    + lia.
    + reflexivity.
    + reflexivity.
    + lia.
    + reflexivity.
Defined.

Lemma same_inputs_same_bytes_witness :
  let t1 := Fixture.image 2 2 8 in
  let t2 := {| buffer := fun _ => 85; width := 2; height := 2;
               stride_bytes := 8; bpp := 3 |} in
  let out1 := Fixture.rasterize 2 t1 in
  let out2 :=
    skb_rasterizer_draw_msdf_glyph
      Fixture.other_outline Fixture.other_normalize Fixture.other_edgeColoringSimple
      Fixture.other_generateMSDF (Some tt) (Some tt) 2 (Some Fixture.font)
      (IEEE.lit32 16 0) Fixture.zero Fixture.zero (Some t2) in
  same_geometry t1 t2 /\ buffer t1 13 <> buffer t2 13 /\
  returned out1 = returned out2 /\
  library_calls out1 = library_calls out2 /\
  exists t1' t2', target_after out1 = Some t1' /\ target_after out2 = Some t2' /\
    buffer t1' 13 = buffer t2' 13 /\ buffer t2' 13 = 255 /\
    buffer t1' 0 = buffer t2' 0 /\ buffer t2' 0 = 0.
Proof.
  cbv zeta.
  set (t2 := {| buffer := fun _ => 85; width := 2; height := 2;
                stride_bytes := 8; bpp := 3 |}).
  assert (Hg : same_geometry (Fixture.image 2 2 8) t2)
    by (unfold same_geometry; simpl; lia).
  assert (Hd : buffer (Fixture.image 2 2 8) 13 <> buffer t2 13)
    by (unfold Fixture.image, Fixture.sentinel; simpl; lia).
  assert (Hgen : forall x y c,
            0 <= x < width (Fixture.image 2 2 8) ->
            0 <= y < height (Fixture.image 2 2 8) -> 0 <= c < 3 ->
            Fixture.other_generateMSDF 2 2
              (Fixture.edgeColoringSimple
                 (Fixture.normalize (glyph_shape Fixture.outline Fixture.font 2))
                 (f64_lit 3 0))
              (make_projection (pixel_scale (IEEE.lit32 16 0) (upem_scale Fixture.font))
                 Fixture.zero Fixture.zero)
              (make_range (pixel_scale (IEEE.lit32 16 0) (upem_scale Fixture.font)))
              x y c =
            Fixture.generateMSDF 2 2
              (Fixture.edgeColoringSimple
                 (Fixture.normalize (glyph_shape Fixture.outline Fixture.font 2))
                 (f64_lit 3 0))
              (make_projection (pixel_scale (IEEE.lit32 16 0) (upem_scale Fixture.font))
                 Fixture.zero Fixture.zero)
              (make_range (pixel_scale (IEEE.lit32 16 0) (upem_scale Fixture.font)))
              x y c).
  { intros x y c Hx Hy Hc. simpl in Hx, Hy. unfold Fixture.other_generateMSDF.
    rewrite (proj2 (Z.leb_le 0 x)), (proj2 (Z.ltb_lt x 2)), (proj2 (Z.leb_le 0 y)),
      (proj2 (Z.ltb_lt y 2)), (proj2 (Z.leb_le 0 c)), (proj2 (Z.ltb_lt c 3)) by lia.
    reflexivity. }
  assert (Hcol : Fixture.other_edgeColoringSimple
                   (Fixture.normalize (glyph_shape Fixture.outline Fixture.font 2))
                   (f64_lit 3 0) =
                 Fixture.edgeColoringSimple
                   (Fixture.normalize (glyph_shape Fixture.outline Fixture.font 2))
                   (f64_lit 3 0)) by (vm_compute; reflexivity).
  destruct (same_inputs_same_bytes
              Fixture.outline Fixture.other_outline
              Fixture.normalize Fixture.other_normalize
              Fixture.edgeColoringSimple Fixture.other_edgeColoringSimple
              Fixture.generateMSDF Fixture.other_generateMSDF
              None (Some tt) None (Some tt) 2 Fixture.font
              (IEEE.lit32 16 0) Fixture.zero Fixture.zero
              (Fixture.image 2 2 8) t2 Hg eq_refl eq_refl Hcol Hgen)
    as (Hr & Hc & _ & t1' & t2' & Ht1 & Ht2 & _ & Hpix & _).
  split; [exact Hg|]. split; [exact Hd|]. split; [exact Hr|]. split; [exact Hc|].
  exists t1', t2'. split; [exact Ht1|]. split; [exact Ht2|].
  assert (Hne : contours (glyph_shape Fixture.outline Fixture.font 2) <> [])
    by (vm_compute; discriminate).
  assert (H13 : option_map (fun t => buffer t 13) (Some t2') = Some 255)
    by (rewrite <- Ht2; reflexivity).
  assert (H0 : option_map (fun t => buffer t 0) (Some t2') = Some 0)
    by (rewrite <- Ht2; reflexivity).
  injection H13 as H13. injection H0 as H0.
  split; [exact (Hpix eq_refl Hne 1 1 2 ltac:(simpl; lia) ltac:(simpl; lia) ltac:(lia))|].
  split; [exact H13|].
  split; [exact (Hpix eq_refl Hne 0 0 0 ltac:(simpl; lia) ltac:(simpl; lia) ltac:(lia))|].
  exact H0.
Defined.

Lemma draw_commands_extend_open_contour_witness :
  existsb is_MoveTo (Fixture.outline tt 1) = true /\
  exists cs c,
    contours (shape (build_shape (F64 := IEEE.double) (Fixture.outline tt 1))) =
      cs ++ [c] /\
    contours (shape (draw_event (build_shape (Fixture.outline tt 1))
                       (LineTo Fixture.one Fixture.one))) =
      cs ++ [c ++ [LinearSegment
                     (lastPoint (build_shape (Fixture.outline tt 1)))
                     (point2 Fixture.one Fixture.one)]].
Proof.
  assert (Hm : existsb is_MoveTo (Fixture.outline tt 1) = true) by reflexivity.
  split; [exact Hm|].
  destruct (proj2 (proj2 (draw_commands_extend_open_contour (F64 := IEEE.double)
                            (Fixture.outline tt 1))) Hm)
    as (cs & c & Hcs & Hline & _).
  exists cs, c. split; [exact Hcs|].
  exact (proj1 (Hline Fixture.one Fixture.one)).
Defined.

Lemma move_to_only_outline_is_rasterized_witness :
  existsb is_MoveTo (Fixture.outline tt 1) = true /\
  forallb (fun c => negb (is_draw c)) (Fixture.outline tt 1) = true /\
  bpp (Fixture.image 2 2 8) = 3 /\
  contours (glyph_shape Fixture.outline Fixture.font 1) = [[]] /\
  returned (Fixture.rasterize 1 (Fixture.image 2 2 8)) = true.
Proof.
  assert (Hm : existsb is_MoveTo (Fixture.outline tt 1) = true) by reflexivity.
  assert (Hd : forallb (fun c => negb (is_draw c)) (Fixture.outline tt 1) = true)
    by reflexivity.
  assert (Hb : bpp (Fixture.image 2 2 8) = 3) by reflexivity.
  split; [exact Hm|]. split; [exact Hd|]. split; [exact Hb|].
  destruct (proj2 (move_to_only_outline_is_rasterized (skb_rasterizer_t := unit)
                     (skb_temp_alloc_t := unit)
                     Fixture.outline Fixture.normalize Fixture.edgeColoringSimple
                     Fixture.generateMSDF None None 1 Fixture.font
                     (IEEE.lit32 16 0) Fixture.zero Fixture.zero
                     (Fixture.image 2 2 8)) Hm Hd) as (Hrep & _ & Hrun).
  split; [exact Hrep|]. exact (proj1 (Hrun Hb)).
Defined.

(** ** The shape builder as a whole *)

Section Contours.

Context {F32 F64 : Type} {FA : FloatArith F32 F64}.

Implicit Types (ctx : MsdfBuildContext F64) (cmds : list (PathCommand F32))
  (p : Point2 F64).

(** From an open context: the last contour grows by the edges drawn up to
    the next MoveTo, and the rest of the stream adds its own contours. *)
Lemma fold_draw_event_split cmds ctx cs c :
  contour ctx = Some (length cs) -> contours (shape ctx) = cs ++ [c] ->
  contours (shape (fold_left draw_event cmds ctx)) =
  cs ++ (c ++ contour_of (lastPoint ctx) cmds) :: split_contours cmds.
Proof.
  revert ctx cs c. induction cmds as [|e cmds IH]; intros ctx cs c Hi Hcs.
  - simpl. rewrite app_nil_r. exact Hcs.
  - destruct e; simpl.
    + rewrite (IH (msdf_move_to ctx to_x to_y) (cs ++ [c]) []).
      * simpl. rewrite app_nil_r, <- app_assoc. reflexivity.
      * simpl. rewrite Hcs. reflexivity.
      * simpl. rewrite Hcs. reflexivity.
    + unfold msdf_line_to. rewrite Hi.
      rewrite (IH _ cs (c ++ [LinearSegment (lastPoint ctx) (point2 to_x to_y)])).
      * simpl. rewrite <- app_assoc. reflexivity.
      * reflexivity.
      * simpl. apply addEdge_last, Hcs.
    + unfold msdf_quadratic_to. rewrite Hi.
      rewrite (IH _ cs (c ++ [QuadraticSegment (lastPoint ctx) (point2 c1x c1y)
                                 (point2 to_x to_y)])).
      * simpl. rewrite <- app_assoc. reflexivity.
      * reflexivity.
      * simpl. apply addEdge_last, Hcs.
    + unfold msdf_cubic_to. rewrite Hi.
      rewrite (IH _ cs (c ++ [CubicSegment (lastPoint ctx) (point2 c1x c1y)
                                 (point2 c2x c2y) (point2 to_x to_y)])).
      * simpl. rewrite <- app_assoc. reflexivity.
      * reflexivity.
      * simpl. apply addEdge_last, Hcs.
    + unfold msdf_close_path. apply IH; assumption.
Qed.

Lemma fold_draw_event_closed_split cmds ctx :
  contour ctx = None -> contours (shape ctx) = [] ->
  contours (shape (fold_left draw_event cmds ctx)) = split_contours cmds.
Proof.
  intros Hc Hnil. induction cmds as [|e cmds IH]; [exact Hnil|].
  destruct e; simpl;
    try (unfold msdf_line_to, msdf_quadratic_to, msdf_cubic_to, msdf_close_path;
         rewrite ?Hc; exact IH).
  rewrite (fold_draw_event_split cmds (msdf_move_to ctx to_x to_y) [] []).
  - reflexivity.
  - simpl. rewrite Hnil. reflexivity.
  - simpl. rewrite Hnil. reflexivity.
Qed.

Lemma build_shape_split cmds :
  contours (shape (build_shape cmds)) = split_contours (F64 := F64) cmds.
Proof. apply fold_draw_event_closed_split; reflexivity. Qed.

Lemma contour_of_path p cmds : path_from p (contour_of p cmds).
Proof.
  revert p. induction cmds as [|e cmds IH]; intros p; [exact I|].
  destruct e; simpl; auto.
Qed.

Lemma split_contours_paths cmds :
  Forall (fun c : Contour F64 => exists p, path_from p c) (split_contours cmds).
Proof.
  induction cmds as [|e cmds IH]; [constructor|].
  destruct e; simpl; try exact IH.
  constructor; [|exact IH]. eexists. apply contour_of_path.
Qed.

Lemma contour_of_app_MoveTo p cmds x y rest :
  contour_of p (cmds ++ MoveTo x y :: rest) = contour_of p cmds.
Proof.
  revert p. induction cmds as [|e cmds IH]; intros p; [reflexivity|].
  destruct e; simpl; rewrite ?IH; reflexivity.
Qed.

Lemma split_contours_app_MoveTo cmds x y rest :
  split_contours (F64 := F64) (cmds ++ MoveTo x y :: rest) =
  split_contours cmds ++ split_contours (MoveTo x y :: rest).
Proof.
  induction cmds as [|e cmds IH]; [reflexivity|].
  destruct e; simpl; try exact IH.
  rewrite contour_of_app_MoveTo. simpl in IH. rewrite IH. reflexivity.
Qed.

Lemma split_contours_length cmds :
  length (split_contours (F64 := F64) cmds) = length (List.filter is_MoveTo cmds).
Proof.
  induction cmds as [|e cmds IH]; [reflexivity|].
  destruct e; simpl; rewrite ?IH; reflexivity.
Qed.

Lemma contour_of_edges p cmds :
  (length (contour_of p cmds) + length (concat (split_contours (F64 := F64) cmds)))%nat =
  length (List.filter is_draw cmds).
Proof.
  revert p. induction cmds as [|e cmds IH]; intros p; [reflexivity|].
  destruct e; simpl; rewrite ?length_app; try (rewrite <- (IH p); lia).
  - rewrite <- (IH (point2 to_x to_y)). lia.
  - rewrite <- (IH (point2 to_x to_y)). lia.
  - rewrite <- (IH (point2 to_x to_y)). lia.
  - rewrite <- (IH (point2 to_x to_y)). lia.
Qed.

Lemma split_contours_edges cmds :
  length (concat (split_contours (F64 := F64) cmds)) =
  length (List.filter is_draw (from_first_MoveTo cmds)).
Proof.
  induction cmds as [|e cmds IH]; [reflexivity|].
  destruct e; try exact IH.
  simpl. rewrite length_app. apply contour_of_edges.
Qed.

End Contours.

Section ShapeProperties.

Context {F32 F64 : Type} {FA : FloatArith F32 F64}.

Implicit Types (cmds : list (PathCommand F32)).

Lemma fold_draw_event_skip_ClosePath cmds (ctx : MsdfBuildContext F64) :
  fold_left draw_event (List.filter (fun c => negb (is_ClosePath c)) cmds) ctx =
  fold_left draw_event cmds ctx.
Proof.
  revert ctx. induction cmds as [|e cmds IH]; intros ctx; [reflexivity|].
  destruct e; simpl; apply IH.
Qed.

(** X1. The shape built through the callbacks is the stream cut at its
    MoveTo events: one contour per MoveTo, holding the edges of the line,
    quadratic and cubic commands that follow it up to the next MoveTo, each
    from the end point of the one before; ClosePath adds nothing and the
    commands before the first MoveTo are dropped. The rasterizer works on
    this shape. *)
Theorem built_shape_is_stream_cut_at_move_to cmds :
  contours (shape (build_shape (F64 := F64) cmds)) = split_contours cmds /\
  (forall (hb_font_t : Type) (glyph_outline : hb_font_t -> Z -> list (PathCommand F32))
          (f : skb_font_t F32 hb_font_t) (glyph_id : Z),
     glyph_shape (F64 := F64) glyph_outline f glyph_id =
     {| contours := split_contours (glyph_outline (hb_font f) glyph_id) |}).
Proof.
  split; [apply build_shape_split|].
  intros hb_font_t glyph_outline f glyph_id.
  assert (H := build_shape_split (F64 := F64) (glyph_outline (hb_font f) glyph_id)).
  unfold glyph_shape, hb_font_draw_glyph. unfold build_shape in H.
  destruct (shape (fold_left draw_event _ initial_context)) as [cs].
  simpl in H. rewrite H. reflexivity.
Qed.

(** X2. The built shape has as many contours as the stream has MoveTo
    events, and as many edges in all as there are line, quadratic and cubic
    commands from the first MoveTo on. *)
Theorem built_shape_counts cmds :
  length (contours (shape (build_shape (F64 := F64) cmds))) =
    length (List.filter is_MoveTo cmds) /\
  length (concat (contours (shape (build_shape (F64 := F64) cmds)))) =
    length (List.filter is_draw (from_first_MoveTo cmds)).
Proof.
  rewrite build_shape_split. split.
  - apply split_contours_length.
  - apply split_contours_edges.
Qed.

(** X3. Every contour of the built shape is a connected path: each edge
    starts at the point where the edge before it ended. *)
Theorem built_contours_are_paths cmds :
  Forall (fun c : Contour F64 => exists p, path_from p c)
    (contours (shape (build_shape cmds))).
Proof. rewrite build_shape_split. apply split_contours_paths. Qed.

(** X4. ClosePath events and the events before the first MoveTo leave no
    trace: the build context, shape included, is the same without them. *)
Theorem close_path_and_leading_events_ignored cmds :
  build_shape (F64 := F64) (List.filter (fun c => negb (is_ClosePath c)) cmds) =
    build_shape cmds /\
  (forall pre, forallb (fun c => negb (is_MoveTo c)) pre = true ->
     build_shape (F64 := F64) (pre ++ cmds) = build_shape cmds).
Proof.
  split.
  - apply fold_draw_event_skip_ClosePath.
  - intros pre Hpre. unfold build_shape. rewrite fold_left_app.
    rewrite (fold_draw_event_closed pre initial_context eq_refl Hpre). reflexivity.
Qed.

(** X5. A MoveTo seals what was built before it: the contours of a stream
    with a MoveTo in it are the contours of the part before that MoveTo
    followed by the contours of the part from that MoveTo on. *)
Theorem move_to_seals_earlier_contours cmds x y rest :
  contours (shape (build_shape (F64 := F64) (cmds ++ MoveTo x y :: rest))) =
  contours (shape (build_shape (F64 := F64) cmds)) ++
  contours (shape (build_shape (F64 := F64) (MoveTo x y :: rest))).
Proof. rewrite !build_shape_split. apply split_contours_app_MoveTo. Qed.

End ShapeProperties.

(** ** The copy loops as a whole *)

Section CopyClosedForm.

Context {F32 F64 : Type} {FA : FloatArith F32 F64}.
Variable msdf : Bitmap F32.
Variables row_stride w h : Z.

(** Rows that do not overlap: the buffer after the loops, offset by
    offset. *)
Lemma copy_to_target_closed_form m a :
  0 < w -> 3 * w <= row_stride -> h * row_stride <= INT_MAX ->
  copy_to_target msdf row_stride w h m a = copied_byte msdf row_stride w h m a.
Proof.
  intros Hw Hrs Hmax. rewrite copy_to_target_spec. unfold copied_byte.
  assert (Hpos : 0 < row_stride) by lia.
  destruct ((0 <=? a) && (a / row_stride <? h) && (a mod row_stride <? 3 * w)) eqn:E.
  - apply andb_prop in E as [E Hk]. apply andb_prop in E as [Ha Hy].
    apply Z.leb_le in Ha. apply Z.ltb_lt in Hy, Hk.
    assert (Hdm := Z.div_mod a row_stride ltac:(lia)).
    assert (Hmod := Z.mod_pos_bound a row_stride Hpos).
    assert (Hdiv : 0 <= a / row_stride) by (apply Z.div_pos; lia).
    assert (Hdm3 := Z.div_mod (a mod row_stride) 3 ltac:(lia)).
    assert (Hmod3 := Z.mod_pos_bound (a mod row_stride) 3 ltac:(lia)).
    assert (Hx : 0 <= a mod row_stride / 3 < w).
    { split; [apply Z.div_pos; lia|]. apply Z.div_lt_upper_bound; lia. }
    assert (Hoff : pixel_offset row_stride (a / row_stride) (a mod row_stride / 3)
                   + a mod row_stride mod 3 = a).
    { rewrite (pixel_offset_exact row_stride w h) by (try assumption; lia). lia. }
    assert (Hhit := image_writes_hit msdf row_stride w h (a / row_stride)
                      (a mod row_stride / 3) (a mod row_stride mod 3)
                      Hrs Hmax Hx ltac:(lia) ltac:(lia)).
    rewrite Hoff in Hhit. rewrite Hhit. reflexivity.
  - destruct (image_writes msdf row_stride w h a) as [v|] eqn:Ew; [|reflexivity].
    exfalso. apply image_writes_Some in Ew as (x & y & c & Hx & Hy & Hc & Ha & _).
    rewrite (pixel_offset_exact row_stride w h) in Ha by assumption.
    assert (Hq : y = a / row_stride)
      by (apply (Z.div_unique a row_stride y (x * 3 + c)); lia).
    assert (Hr : x * 3 + c = a mod row_stride)
      by (apply (Z.mod_unique a row_stride y (x * 3 + c)); lia).
    assert (0 <= a) by nia.
    rewrite <- Hq, <- Hr in E.
    rewrite (proj2 (Z.leb_le 0 a)), (proj2 (Z.ltb_lt y h)),
      (proj2 (Z.ltb_lt (x * 3 + c) (3 * w))) in E by lia.
    discriminate.
Qed.

(** No column or no row: the loops store nothing. *)
Lemma copy_to_target_degenerate m a :
  w <= 0 \/ h <= 0 -> copy_to_target msdf row_stride w h m a = m a.
Proof.
  intros Hdeg. rewrite copy_to_target_spec.
  rewrite (proj2 (image_writes_None msdf row_stride w h a)); [reflexivity|].
  intros x y c Hx Hy Hc. lia.
Qed.

End CopyClosedForm.

(** ** The rasterizer on whole targets *)

Section RasterizerProperties.

Context {F32 F64 : Type} {FA : FloatArith F32 F64}.
Context {hb_font_t skb_rasterizer_t skb_temp_alloc_t : Type}.
Variable glyph_outline : hb_font_t -> Z -> list (PathCommand F32).
Variable normalize : Shape F64 -> Shape F64.
Variable edgeColoringSimple : Shape F64 -> F64 -> Shape F64.
Variable generateMSDF :
  Z -> Z -> Shape F64 -> Projection F64 -> Range F64 -> Bitmap F32.

Local Abbreviation draw :=
  (skb_rasterizer_draw_msdf_glyph
     (skb_rasterizer_t := skb_rasterizer_t) (skb_temp_alloc_t := skb_temp_alloc_t)
     glyph_outline normalize edgeColoringSimple generateMSDF).
Local Abbreviation field := (glyph_field glyph_outline normalize edgeColoringSimple generateMSDF).
Local Abbreviation shape_of := (glyph_shape glyph_outline).

Implicit Types (rasterizer : option skb_rasterizer_t)
  (temp_alloc : option skb_temp_alloc_t)
  (f : skb_font_t F32 hb_font_t) (font : option (skb_font_t F32 hb_font_t))
  (t : skb_image_t) (target : option skb_image_t).

(** X6. For a glyph with a contour and a target with at least one column
    and no negative height whose rows do not overlap, the buffer after the call is known byte by
    byte: an offset inside the pixels of row [a / row_stride] holds the
    quantized sample of pixel [(a mod row_stride) / 3] and channel
    [(a mod row_stride) mod 3], every other offset keeps its byte. So no
    byte is written below the buffer start or from
    [(height-1)*row_stride + width*3] on. *)
Theorem generation_branch_buffer rasterizer temp_alloc glyph_id f fs ox oy t :
  bpp t = 3 -> contours (shape_of f glyph_id) <> [] ->
  rows_disjoint t -> 0 < width t -> 0 <= height t ->
  let out := draw rasterizer temp_alloc glyph_id (Some f) fs ox oy (Some t) in
  let raw := field f glyph_id fs ox oy t in
  let rs := row_stride_of t in
  exists t', target_after out = Some t' /\
    (forall a,
       buffer t' a =
       if (0 <=? a) && (a / rs <? height t) && (a mod rs <? 3 * width t)
       then quantize (raw (a mod rs / 3) (a / rs) (a mod rs mod 3))
       else buffer t a) /\
    (forall a, a < 0 \/ (height t - 1) * rs + width t * 3 <= a ->
               buffer t' a = buffer t a).
Proof.
  intros Hbpp Hne [Hrs Hmax] Hw Hh. cbv zeta. rewrite draw_glyph by assumption. simpl.
  eexists. split; [reflexivity|]. simpl.
  assert (Hform : forall a,
            copy_to_target (field f glyph_id fs ox oy t) (row_stride_of t)
              (width t) (height t) (buffer t) a =
            copied_byte (field f glyph_id fs ox oy t) (row_stride_of t)
              (width t) (height t) (buffer t) a)
    by (intros a; apply copy_to_target_closed_form; assumption).
  split; [exact Hform|].
  intros a Ha. rewrite Hform. unfold copied_byte.
  destruct ((0 <=? a) && (a / row_stride_of t <? height t)
            && (a mod row_stride_of t <? 3 * width t)) eqn:E; [|reflexivity].
  exfalso. apply andb_prop in E as [E Hk]. apply andb_prop in E as [Ha0 Hy].
  apply Z.leb_le in Ha0. apply Z.ltb_lt in Hy, Hk.
  assert (Hdm := Z.div_mod a (row_stride_of t) ltac:(lia)).
  destruct Ha as [Ha|Ha]; [lia|]. nia.
Qed.

(** X7. A tightly packed target ([stride_bytes] not positive, or equal to
    [width*3]): for a glyph with a contour the call writes exactly the
    offsets [0 .. width*height*3 - 1], row after row and pixel after pixel,
    three channels each; the byte at offset [a] is the quantized sample of
    row [a / (width*3)], pixel [(a mod (width*3)) / 3], channel [a mod 3]. *)
Theorem packed_target_is_filled_contiguously
    rasterizer temp_alloc glyph_id f fs ox oy t :
  bpp t = 3 -> contours (shape_of f glyph_id) <> [] ->
  stride_bytes t <= 0 \/ stride_bytes t = 3 * width t ->
  0 < width t -> 0 < height t -> 3 * width t * height t <= INT_MAX ->
  let out := draw rasterizer temp_alloc glyph_id (Some f) fs ox oy (Some t) in
  let raw := field f glyph_id fs ox oy t in
  exists t', target_after out = Some t' /\
    forall a,
      buffer t' a =
      if (0 <=? a) && (a <? 3 * width t * height t)
      then quantize (raw (a mod (3 * width t) / 3) (a / (3 * width t)) (a mod 3))
      else buffer t a.
Proof.
  intros Hbpp Hne Hstride Hw Hh Hmax. cbv zeta.
  assert (H3w : 3 * width t <= INT_MAX) by nia.
  assert (Hrs : row_stride_of t = 3 * width t).
  { unfold row_stride_of. destruct (Z.ltb_spec 0 (stride_bytes t)) as [Hp|Hp].
    - lia.
    - rewrite int_mul_small by (unfold INT_MAX in *; lia). lia. }
  rewrite draw_glyph by assumption. simpl.
  eexists. split; [reflexivity|]. simpl. intros a.
  rewrite copy_to_target_closed_form by (rewrite ?Hrs; lia || nia).
  unfold copied_byte. rewrite Hrs.
  assert (Hmodlt : (a mod (3 * width t) <? 3 * width t) = true)
    by (apply Z.ltb_lt, Z.mod_pos_bound; lia).
  rewrite Hmodlt, andb_true_r.
  assert (Hmod3 : a mod (3 * width t) mod 3 = a mod 3).
  { apply Z.mod_mod_divide. exists (width t). lia. }
  rewrite Hmod3.
  destruct (Z.leb_spec 0 a) as [Ha|Ha]; [|reflexivity]. simpl.
  assert (Hiff : (a / (3 * width t) <? height t) = (a <? 3 * width t * height t)).
  { destruct (Z.ltb_spec a (3 * width t * height t)) as [Hlt|Hge].
    - apply Z.ltb_lt, Z.div_lt_upper_bound; lia.
    - apply Z.ltb_ge. apply Z.div_le_lower_bound; lia. }
  rewrite Hiff. reflexivity.
Qed.

(** X8. A target without columns or rows is left as it was: with a width or
    height of 0 the copy loops store nothing, though the shape is still
    normalized, colored and handed to the field generation with these
    dimensions, and for a glyph without contour the fill is empty. The call
    returns true in both cases. *)
Theorem empty_target_is_left_unchanged rasterizer temp_alloc glyph_id f fs ox oy t :
  let out := draw rasterizer temp_alloc glyph_id (Some f) fs ox oy (Some t) in
  bpp t = 3 ->
  (contours (glyph_shape glyph_outline f glyph_id) <> [] ->
   width t = 0 \/ height t = 0 ->
   returned out = true /\
   (exists s p r, call_generateMSDF (width t) (height t) s p r ∈ library_calls out) /\
   exists t', target_after out = Some t' /\ forall a, buffer t' a = buffer t a) /\
  (contours (glyph_shape glyph_outline f glyph_id) = [] ->
   width t = 0 \/ height t = 0 ->
   returned out = true /\
   exists t', target_after out = Some t' /\ forall a, buffer t' a = buffer t a).
Proof.
  cbv zeta. intros Hbpp. split.
  - intros Hne Hdeg. rewrite draw_glyph by assumption. simpl.
    split; [reflexivity|]. split.
    + eexists _, _, _. apply elem_of_cons. right. apply elem_of_cons. right.
      apply elem_of_cons. left. reflexivity.
    + eexists. split; [reflexivity|]. simpl. intros a.
      apply copy_to_target_degenerate. lia.
  - intros He Hdeg. rewrite draw_empty_glyph by assumption. simpl.
    split; [reflexivity|]. eexists. split; [reflexivity|]. simpl. intros a.
    assert (Hn : int_mul (int_mul (width t) (height t)) 3 = 0).
    { assert (Hz : width t * height t = 0) by (destruct Hdeg as [-> | ->]; lia).
      unfold int_mul. rewrite Hz. reflexivity. }
    rewrite Hn. unfold memset, size_t_of_int.
    destruct (Z.leb_spec 0 a), (Z.ltb_spec a (0 mod 2 ^ 64)); simpl; try reflexivity.
    exfalso. change (0 mod 2 ^ 64) with 0 in *. lia.
Qed.

(** X9. msdfgen is never run on a shape without contours. A call makes
    either no library call or exactly three, in the order normalize, edge
    coloring, field generation, each on the shape the one before returned and
    the last with the dimensions of the target; it makes them only when it
    returns true. *)
Theorem library_is_called_on_non_empty_shapes_only
    rasterizer temp_alloc glyph_id font fs ox oy target :
  let out := draw rasterizer temp_alloc glyph_id font fs ox oy target in
  (library_calls out = [] \/
   exists f t p r,
     font = Some f /\ target = Some t /\ contours (shape_of f glyph_id) <> [] /\
     library_calls out =
       [ call_normalize (shape_of f glyph_id);
         call_edgeColoringSimple (normalize (shape_of f glyph_id)) (f64_lit 3 0);
         call_generateMSDF (width t) (height t)
           (edgeColoringSimple (normalize (shape_of f glyph_id)) (f64_lit 3 0)) p r ]) /\
  (forall s, call_normalize s ∈ library_calls out -> contours s <> []) /\
  (library_calls out <> [] -> returned out = true).
Proof.
  cbv zeta.
  destruct font as [f|]; [|simpl; split; [left; reflexivity|split;
    [intros s Hin; inversion Hin | intros H; destruct (H eq_refl)]]].
  destruct target as [t|]; [|simpl; split; [left; reflexivity|split;
    [intros s Hin; inversion Hin | intros H; destruct (H eq_refl)]]].
  destruct (Z.eq_dec (bpp t) 3) as [Hbpp|Hbpp].
  - destruct (contours (shape_of f glyph_id)) as [|c0 cs] eqn:E.
    + rewrite draw_empty_glyph by assumption. simpl.
      split; [left; reflexivity|]. split;
        [intros s Hin; inversion Hin | intros H; destruct (H eq_refl)].
    + assert (Hne : contours (shape_of f glyph_id) <> []) by congruence.
      rewrite draw_glyph by assumption. simpl. split; [|split].
      * right. eexists f, t, _, _. repeat split; try reflexivity. exact Hne.
      * intros s Hin.
        apply elem_of_cons in Hin as [Hin|Hin]; [congruence|].
        apply elem_of_cons in Hin as [Hin|Hin]; [discriminate|].
        apply elem_of_cons in Hin as [Hin|Hin]; [discriminate|inversion Hin].
      * reflexivity.
  - rewrite draw_precondition_failure by (right; right; eauto). simpl.
    split; [left; reflexivity|]. split;
      [intros s Hin; inversion Hin | intros H; destruct (H eq_refl)].
Qed.

(** X10. A glyph without contour in a target whose stride is larger than a
    row of pixels, with at least two rows: the fill runs over the first
    [width*height*3] bytes whatever the stride, so the byte right after the
    pixels of row 0 is set to 0 and the last byte of the last pixel of the
    last row keeps the value it had. *)
Theorem empty_glyph_fill_is_not_strided rasterizer temp_alloc glyph_id f fs ox oy t :
  bpp t = 3 -> contours (shape_of f glyph_id) = [] ->
  0 < width t -> 2 <= height t -> 3 * width t < stride_bytes t ->
  3 * width t * height t <= INT_MAX ->
  let out := draw rasterizer temp_alloc glyph_id (Some f) fs ox oy (Some t) in
  let last := (height t - 1) * stride_bytes t + 3 * width t - 1 in
  exists t', target_after out = Some t' /\
    buffer t' (3 * width t) = 0 /\
    buffer t' last = buffer t last.
Proof.
  intros Hbpp He Hw Hh Hs Hmax. cbv zeta.
  rewrite draw_empty_glyph by assumption. simpl.
  eexists. split; [reflexivity|]. simpl.
  assert (Hn : size_t_of_int (int_mul (int_mul (width t) (height t)) 3)
               = width t * height t * 3).
  { unfold size_t_of_int.
    assert (0 <= width t * height t <= INT_MAX) by nia.
    rewrite (int_mul_small (width t)) by (unfold INT_MAX in *; lia).
    rewrite int_mul_small by (unfold INT_MAX in *; lia).
    apply Z.mod_small. unfold INT_MAX in *. lia. }
  rewrite Hn. unfold memset. split.
  - rewrite (proj2 (Z.leb_le _ _)), (proj2 (Z.ltb_lt _ _)) by nia. reflexivity.
  - rewrite (proj2 (Z.ltb_ge _ _)) by nia. rewrite andb_false_r. reflexivity.
Qed.

End RasterizerProperties.

(** ** Saturation of the quantization on binary32 *)

Lemma digits2_pos_bounds (p : positive) :
  2 ^ (Zpos (digits2_pos p) - 1) <= Zpos p < 2 ^ Zpos (digits2_pos p).
Proof.
  induction p as [p IH|p IH|]; simpl digits2_pos.
  - rewrite Pos2Z.inj_succ. replace (Z.succ (Zpos (digits2_pos p)) - 1)
      with (Z.succ (Zpos (digits2_pos p) - 1)) by lia.
    rewrite !Z.pow_succ_r by lia. lia.
  - rewrite Pos2Z.inj_succ. replace (Z.succ (Zpos (digits2_pos p)) - 1)
      with (Z.succ (Zpos (digits2_pos p) - 1)) by lia.
    rewrite !Z.pow_succ_r by lia. lia.
  - simpl. lia.
Qed.

Lemma digits2_pos_unique (p : positive) (d : Z) :
  2 ^ (d - 1) <= Zpos p < 2 ^ d -> 1 <= d -> Zpos (digits2_pos p) = d.
Proof.
  intros [Hlo Hhi] Hd. destruct (digits2_pos_bounds p) as [Hlo' Hhi'].
  destruct (Z.lt_trichotomy (Zpos (digits2_pos p)) d) as [H|[H|H]]; [|exact H|].
  - assert (2 ^ Zpos (digits2_pos p) <= 2 ^ (d - 1)) by (apply Z.pow_le_mono_r; lia). lia.
  - assert (2 ^ d <= 2 ^ (Zpos (digits2_pos p) - 1)) by (apply Z.pow_le_mono_r; lia). lia.
Qed.

Lemma shr_1_m (mrs : shr_record) :
  0 <= shr_m mrs -> shr_m (shr_1 mrs) = shr_m mrs / 2.
Proof.
  destruct mrs as [m r s]. cbn [shr_m]. intros Hm.
  destruct m as [|[p|p|]|p]; cbn [shr_1 shr_m]; try reflexivity; try lia.
  - apply (Z.div_unique _ 2 _ 1); lia.
  - apply (Z.div_unique _ 2 _ 0); lia.
Qed.

Lemma iter_pos_shr_1_m (p : positive) (mrs : shr_record) :
  0 <= shr_m mrs -> shr_m (SpecFloat.iter_pos shr_1 p mrs) = shr_m mrs / 2 ^ Zpos p.
Proof.
  revert mrs. induction p as [p IH|p IH|]; intros mrs Hm; simpl SpecFloat.iter_pos.
  - assert (H1 : 0 <= shr_m (shr_1 mrs)) by (rewrite shr_1_m by lia; apply Z.div_pos; lia).
    assert (H2 : 0 <= shr_m (SpecFloat.iter_pos shr_1 p (shr_1 mrs)))
      by (rewrite IH by lia; apply Z.div_pos; lia).
    assert (Hpw : 2 ^ Zpos p~1 = 2 * (2 ^ Zpos p * 2 ^ Zpos p)).
    { rewrite <- Z.pow_add_r, <- Z.pow_succ_r by lia. f_equal. lia. }
    rewrite IH, IH, shr_1_m by lia.
    rewrite !Z.div_div by lia. rewrite Hpw. reflexivity.
  - assert (H2 : 0 <= shr_m (SpecFloat.iter_pos shr_1 p mrs))
      by (rewrite IH by lia; apply Z.div_pos; lia).
    assert (Hpw : 2 ^ Zpos p~0 = 2 ^ Zpos p * 2 ^ Zpos p).
    { rewrite <- Z.pow_add_r by lia. f_equal. lia. }
    rewrite IH, IH by lia. rewrite Z.div_div by lia. rewrite Hpw. reflexivity.
  - rewrite shr_1_m by lia. reflexivity.
Qed.

Lemma shr_m_div (mrs : shr_record) (e n : Z) :
  0 <= shr_m mrs -> 0 <= n -> shr_m (fst (shr mrs e n)) = shr_m mrs / 2 ^ n.
Proof.
  intros Hm Hn. destruct n as [|p|p]; simpl; [|apply iter_pos_shr_1_m; lia|lia].
  rewrite Z.div_1_r. reflexivity.
Qed.

Lemma shr_e (mrs : shr_record) (e n : Z) : 0 <= n -> snd (shr mrs e n) = e + n.
Proof. destruct n; simpl; lia. Qed.

Lemma round_nearest_even_range (m : Z) (l : location) :
  m <= round_nearest_even m l <= m + 1.
Proof.
  destruct l as [|[| |]]; simpl; try lia. destruct (Z.even m); lia.
Qed.

Lemma shr_record_of_loc_m (m : Z) (l : location) : shr_m (shr_record_of_loc m l) = m.
Proof. destruct l as [|[| |]]; reflexivity. Qed.

(** Rounding to binary32 does not cross 1: a positive number that is at
    least 1, given by its mantissa and exponent, rounds to a number that is
    at least 1. *)
Lemma binary32_round_ge_one_form (M : positive) (E : Z) :
  24 <= Zpos (digits2_pos M) -> -23 <= Zpos (digits2_pos M) + E - 24 ->
  let res := binary_round_aux 24 128 false (Zpos M) E loc_Exact in
  res = S754_infinity false \/
  exists q e, res = S754_finite false q e /\ -23 <= e /\ 8388608 <= Zpos q.
Proof.
  intros HD HE. cbv zeta.
  remember (binary_round_aux 24 128 false (Zpos M) E loc_Exact) as res eqn:Hres.
  set (D := Zpos (digits2_pos M)) in *.
  destruct (digits2_pos_bounds M) as [Hlo Hhi]. fold D in Hlo, Hhi.
  unfold binary_round_aux in Hres.
  assert (Hn : fexp 24 128 (Zdigits2 (Zpos M) + E) - E = D - 24)
    by (unfold fexp, emin; simpl Zdigits2; fold D; lia).
  unfold shr_fexp at 1 in Hres. rewrite Hn in Hres.
  destruct (shr (shr_record_of_loc (Zpos M) loc_Exact) E (D - 24)) as [mrs' e'] eqn:E1.
  assert (Hm1 : shr_m mrs' = Zpos M / 2 ^ (D - 24)).
  { change mrs' with (fst (mrs', e')). rewrite <- E1.
    rewrite shr_m_div by (simpl; lia). reflexivity. }
  assert (He1 : e' = E + (D - 24)).
  { change e' with (snd (mrs', e')). rewrite <- E1. apply shr_e. lia. }
  assert (Hpow : 2 ^ (D - 1) = 2 ^ 23 * 2 ^ (D - 24))
    by (rewrite <- Z.pow_add_r by lia; f_equal; lia).
  assert (Hpow' : 2 ^ D = 2 ^ 24 * 2 ^ (D - 24))
    by (rewrite <- Z.pow_add_r by lia; f_equal; lia).
  assert (Hp : 0 < 2 ^ (D - 24)) by (apply Z.pow_pos_nonneg; lia).
  assert (Hr1 : 2 ^ 23 <= shr_m mrs' < 2 ^ 24).
  { rewrite Hm1. split.
    - apply Z.div_le_lower_bound; lia.
    - apply Z.div_lt_upper_bound; lia. }
  assert (Hrne := round_nearest_even_range (shr_m mrs') (loc_of_shr_record mrs')).
  set (m2 := round_nearest_even (shr_m mrs') (loc_of_shr_record mrs')) in *.
  change (2 ^ 23) with 8388608 in *. change (2 ^ 24) with 16777216 in *.
  destruct m2 as [|q|q] eqn:Em2; try lia.
  destruct (Z.eq_dec (Zpos q) 16777216) as [Heq|Hneq].
  - assert (q = 16777216%positive) by lia.
    subst q. unfold shr_fexp, fexp, emin in Hres.
    change (Zdigits2 16777216) with 25 in Hres.
    replace (Z.max (25 + e' - 24) (3 - 128 - 24) - e') with 1 in Hres by lia.
    cbn [shr shr_record_of_loc SpecFloat.iter_pos shr_1 shr_m orb] in Hres.
    destruct (e' + 1 <=? 128 - 24) eqn:Hle; [|left; exact Hres].
    right. eexists _, _. split; [exact Hres|]. lia.
  - assert (Hdq : Zpos (digits2_pos q) = 24)
      by (apply digits2_pos_unique; [change (2 ^ (24 - 1)) with 8388608;
          change (2 ^ 24) with 16777216|]; lia).
    unfold shr_fexp, fexp, emin in Hres.
    change (Zdigits2 (Zpos q)) with (Zpos (digits2_pos q)) in Hres. rewrite Hdq in Hres.
    replace (Z.max (24 + e' - 24) (3 - 128 - 24) - e') with 0 in Hres by lia.
    cbn [shr shr_record_of_loc shr_m] in Hres.
    destruct (e' <=? 128 - 24) eqn:Hle; [|left; exact Hres].
    right. eexists _, _. split; [exact Hres|]. lia.
Qed.

Lemma binary32_round_ge_one (M : positive) (E : Z) :
  24 <= Zpos (digits2_pos M) -> -23 <= Zpos (digits2_pos M) + E - 24 ->
  let res := binary_round_aux 24 128 false (Zpos M) E loc_Exact in
  SFltb (S754_zero false) res = true /\
  SFltb res (S754_finite false 8388608 (-23)) = false.
Proof.
  intros HD HE. cbv zeta.
  destruct (binary32_round_ge_one_form M E HD HE) as [-> | (q & e & -> & He & Hq)];
    [split; reflexivity|].
  split; [reflexivity|].
  unfold SFltb, SFcompare.
  destruct (Z.compare_spec e (-23)) as [Hc|Hc|Hc]; try reflexivity; [|lia].
  change (Pos.compare_cont Eq q 8388608) with (Pos.compare q 8388608).
  destruct (Pos.compare_spec q 8388608) as [Hq'|Hq'|Hq']; try reflexivity. lia.
Qed.

(** Half of a normal binary32 number above the smallest exponents is
    exact. *)
Lemma binary32_half (s : bool) (m : positive) (e : Z) :
  Zpos (digits2_pos m) = 24 -> -148 <= e <= 105 ->
  SFmul 24 128 (S754_finite s m e) (S754_finite false 8388608 (-24)) =
  S754_finite s m (e - 1).
Proof.
  intros Hd He. unfold SFmul. rewrite xorb_false_r, Pos.mul_comm.
  change (8388608 * m)%positive with (Pos.iter xO m 23).
  assert (Hd' : digits2_pos m = 24%positive) by lia.
  assert (Hd2 : Zdigits2 (Zpos (Pos.iter xO m 23)) = 47).
  { change (Zpos (Pos.iter Pos.succ (digits2_pos m) 23) = 47). rewrite Hd'. reflexivity. }
  unfold binary_round_aux, shr_fexp. rewrite Hd2. unfold fexp, emin.
  replace (Z.max (47 + (e + -24) - 24) (3 - 128 - 24) - (e + -24)) with 23 by lia.
  change (shr (shr_record_of_loc (Zpos (Pos.iter xO m 23)) loc_Exact) (e + -24) 23)
    with ({| shr_m := Zpos m; shr_r := false; shr_s := false |}, e + -24 + 23).
  cbn [shr_m loc_of_shr_record round_nearest_even shr_record_of_loc].
  change (Zdigits2 (Zpos m)) with (Zpos (digits2_pos m)). rewrite Hd.
  replace (Z.max (24 + (e + -24 + 23) - 24) (3 - 128 - 24) - (e + -24 + 23))
    with 0 by lia.
  cbn [shr shr_m].
  rewrite (proj2 (Z.leb_le _ _)) by lia.
  f_equal. lia.
Qed.

(** Rounding keeps the sign: a negative number does not round to a
    positive one. *)
Lemma binary_round_negative (prec emax : Z) (m : positive) (e : Z) :
  SFltb (S754_zero false) (binary_round prec emax true m e) = false.
Proof.
  unfold binary_round. destruct (shl_align m e _) as [mz ez].
  unfold binary_round_aux.
  destruct (shr_fexp prec emax (Zpos mz) ez loc_Exact) as [mrs' e'].
  destruct (shr_fexp prec emax _ e' loc_Exact) as [mrs'' e''].
  destruct (shr_m mrs''); [reflexivity| |reflexivity].
  destruct (e'' <=? emax - prec); reflexivity.
Qed.

(** A normal binary32 number of exponent at least -23 has a mantissa of 24
    bits. *)
Lemma binary32_normal (m : positive) (e : Z) :
  bounded 24 128 m e = true -> -23 <= e ->
  Zpos (digits2_pos m) = 24 /\ e <= 104 /\ 8388608 <= Zpos m.
Proof.
  unfold bounded, canonical_mantissa, fexp, emin.
  intros [Hc Hle]%andb_prop He. apply Z.eqb_eq in Hc. apply Z.leb_le in Hle.
  assert (Hd : Zpos (digits2_pos m) = 24) by lia.
  split; [exact Hd|]. split; [lia|].
  destruct (digits2_pos_bounds m) as [Hlo _]. rewrite Hd in Hlo.
  exact Hlo.
Qed.

(** The mantissa aligned to exponent -24 of half a number that is at least
    1 in magnitude. *)
Lemma aligned_half_mantissa (m : positive) (e : Z) :
  -23 <= e -> 8388608 <= Zpos m ->
  8388608 <= Zpos (fst (shl_align m (e - 1) (-24))).
Proof.
  intros He Hm. unfold shl_align.
  destruct (-24 - (e - 1)) as [|d|d] eqn:Ed; simpl; try lia.
  change (Pos.iter xO m d) with (shift_pos d m). rewrite shift_pos_correct.
  change (Z.pow_pos 2 d) with (2 ^ Zpos d).
  assert (0 < 2 ^ Zpos d) by (apply Z.pow_pos_nonneg; lia). nia.
Qed.

(** X11. On binary32 the quantization saturates: every sample that is at
    most -1, minus infinity included, is stored as 0 and every sample that
    is at least 1, plus infinity included, as 255. *)
Theorem binary32_quantization_saturates (r : IEEE.float) :
  valid_binary IEEE.prec32 IEEE.emax32 r = true ->
  (SFleb r (f32_lit (-1) 0) = true -> quantize r = 0) /\
  (SFleb (f32_lit 1 0) r = true -> quantize r = 255).
Proof.
  intros Hv. destruct r as [s|s| |s m e].
  - split; intros H; destruct s; discriminate H.
  - destruct s; split; intros H; try discriminate H; reflexivity.
  - split; intros H; discriminate H.
  - change (bounded 24 128 m e = true) in Hv.
    change (f32_lit (-1) 0) with (S754_finite true 8388608 (-23)).
    change (f32_lit 1 0) with (S754_finite false 8388608 (-23)).
    split; intros Hle.
    + assert (Hs : s = true) by (destruct s; [reflexivity|discriminate Hle]).
      subst s.
      assert (He : -23 <= e).
      { destruct (Z.le_gt_cases (-23) e) as [H|H]; [exact H|]. exfalso.
        unfold SFleb, SFcompare in Hle.
        rewrite (proj2 (Z.compare_lt_iff e (-23))) in Hle by lia. discriminate Hle. }
      destruct (binary32_normal m e Hv He) as (Hd & Hhi & Hm).
      apply (proj1 (ieee_quantize_saturates (S754_finite true m e))).
      cbn [f32_lt f32_add f32_mul f32_lit IEEE.arith].
      change (IEEE.lit32 1 (-1)) with (S754_finite false 8388608 (-24)).
      change (IEEE.lit32 0 0) with (S754_zero false).
      unfold IEEE.prec32, IEEE.emax32.
      rewrite binary32_half by (try assumption; lia).
      unfold SFadd.
      replace (IntDef.Z.min (-24) (e - 1)) with (-24) by lia.
      assert (Hb := aligned_half_mantissa m e He Hm).
      destruct (fst (shl_align m (e - 1) (-24))) as [b|b|] eqn:Eb;
        change (fst (shl_align 8388608 (-24) (-24))) with 8388608%positive;
        cbn [cond_Zopp].
      all: match goal with
           | |- context [binary_normalize _ _ ?z _ _] =>
               destruct z as [|z'|z'] eqn:Ez; [reflexivity|lia|]
           end.
      all: apply binary_round_negative.
    + assert (Hs : s = false) by (destruct s; [discriminate Hle|reflexivity]).
      subst s.
      assert (He : -23 <= e).
      { destruct (Z.le_gt_cases (-23) e) as [H|H]; [exact H|]. exfalso.
        unfold SFleb, SFcompare in Hle.
        rewrite (proj2 (Z.compare_gt_iff (-23) e)) in Hle by lia. discriminate Hle. }
      destruct (binary32_normal m e Hv He) as (Hd & Hhi & Hm).
      assert (Hnr : let nr := f32_add (f32_lit 1 (-1))
                                (f32_mul (S754_finite false m e : IEEE.float)
                                   (f32_lit 1 (-1))) in
                    f32_lt (f32_lit 0 0) nr = true /\ f32_lt nr (f32_lit 1 0) = false).
      { cbv zeta. cbn [f32_lt f32_add f32_mul f32_lit IEEE.arith].
        change (IEEE.lit32 1 (-1)) with (S754_finite false 8388608 (-24)).
        change (IEEE.lit32 0 0) with (S754_zero false).
        change (IEEE.lit32 1 0) with (S754_finite false 8388608 (-23)).
        unfold IEEE.prec32, IEEE.emax32.
        rewrite binary32_half by (try assumption; lia).
        unfold SFadd.
        replace (IntDef.Z.min (-24) (e - 1)) with (-24) by lia.
        assert (Hb := aligned_half_mantissa m e He Hm).
        set (b := fst (shl_align m (e - 1) (-24))) in *.
        change (fst (shl_align 8388608 (-24) (-24))) with 8388608%positive.
        cbn [cond_Zopp].
        change (Zpos 8388608 + Zpos b) with (Zpos (8388608 + b)).
        cbn [binary_normalize].
        set (M := (8388608 + b)%positive).
        assert (HM : 16777216 <= Zpos M) by (unfold M; lia).
        destruct (digits2_pos_bounds M) as [_ HMhi].
        assert (HD : 25 <= Zpos (digits2_pos M)).
        { destruct (Z.le_gt_cases 25 (Zpos (digits2_pos M))) as [H|H]; [exact H|].
          exfalso.
          assert (2 ^ Zpos (digits2_pos M) <= 2 ^ 24) by (apply Z.pow_le_mono_r; lia).
          change (2 ^ 24) with 16777216 in *. lia. }
        unfold binary_round, shl_align, fexp, emin.
        destruct (Z.max (Zpos (digits2_pos M) + -24 - 24) (3 - 128 - 24) - -24)
          as [|d|d] eqn:Ed; try lia.
        apply binary32_round_ge_one; lia. }
      destruct Hnr as [H0 H1].
      exact (proj2 (ieee_quantize_saturates (S754_finite false m e)) H0 H1).
Qed.

(** ** Font sizes that are no sizes *)

Section FontSizeEdgeCases.

Context {hb_font_t skb_rasterizer_t skb_temp_alloc_t : Type}.
Variable glyph_outline : hb_font_t -> Z -> list (PathCommand IEEE.float).
Variable normalize : Shape IEEE.double -> Shape IEEE.double.
Variable edgeColoringSimple : Shape IEEE.double -> IEEE.double -> Shape IEEE.double.
Variable generateMSDF :
  Z -> Z -> Shape IEEE.double -> Projection IEEE.double -> Range IEEE.double ->
  Bitmap IEEE.float.

Local Abbreviation draw :=
  (skb_rasterizer_draw_msdf_glyph
     (skb_rasterizer_t := skb_rasterizer_t) (skb_temp_alloc_t := skb_temp_alloc_t)
     glyph_outline normalize edgeColoringSimple generateMSDF).

(** X12. The font size is not checked. On IEEE numbers, a font size of zero
    with a finite scale factor gives a zero pixel scale, and the field
    generation is run with a projection of scale zero and an infinite range;
    a font size that is NaN gives a projection and a range made of NaN. The
    call returns true in both cases. *)
Theorem font_size_zero_or_nan_is_rasterized
    (rasterizer : option skb_rasterizer_t) (temp_alloc : option skb_temp_alloc_t)
    (glyph_id : Z) (f : skb_font_t IEEE.float hb_font_t)
    (ox oy : IEEE.float) (t : skb_image_t) :
  bpp t = 3 -> contours (glyph_shape glyph_outline f glyph_id) <> [] ->
  (forall (b su : bool) (mu : positive) (eu : Z),
     upem_scale f = S754_finite su mu eu ->
     let out := draw rasterizer temp_alloc glyph_id (Some f) (S754_zero b) ox oy
                  (Some t) in
     returned out = true /\
     exists s0 s1 k s2 tr,
       library_calls out =
         [ call_normalize s0; call_edgeColoringSimple s1 k;
           call_generateMSDF (width t) (height t) s2
             {| proj_scale := {| vx := S754_zero (xorb b su);
                                 vy := S754_zero (negb (xorb b su)) |};
                proj_translate := tr |}
             {| range_width := S754_infinity (xorb b su) |} ]) /\
  (let out := draw rasterizer temp_alloc glyph_id (Some f) S754_nan ox oy (Some t) in
   returned out = true /\
   exists s0 s1 k s2,
     library_calls out =
       [ call_normalize s0; call_edgeColoringSimple s1 k;
         call_generateMSDF (width t) (height t) s2
           {| proj_scale := {| vx := S754_nan; vy := S754_nan |};
              proj_translate := {| vx := S754_nan; vy := S754_nan |} |}
           {| range_width := S754_nan |} ]).
Proof.
  intros Hbpp Hne. split.
  - intros b su mu eu Hup. cbv zeta. rewrite draw_glyph by assumption. simpl.
    split; [reflexivity|]. rewrite Hup. eexists _, _, _, _, _. reflexivity.
  - cbv zeta. rewrite draw_glyph by assumption. simpl.
    split; [reflexivity|]. eexists _, _, _, _.
    unfold make_projection, make_range, pixel_scale. simpl.
    destruct (IEEE.to_double ox), (IEEE.to_double (SFopp oy)); reflexivity.
Qed.

End FontSizeEdgeCases.

Section OutlineDependence.

Context {F32 F64 : Type} {FA : FloatArith F32 F64}.
Context {hb_font_t skb_rasterizer_t skb_temp_alloc_t : Type}.
Variable normalize : Shape F64 -> Shape F64.
Variable edgeColoringSimple : Shape F64 -> F64 -> Shape F64.
Variable generateMSDF :
  Z -> Z -> Shape F64 -> Projection F64 -> Range F64 -> Bitmap F32.

Lemma glyph_shape_split (glyph_outline : hb_font_t -> Z -> list (PathCommand F32))
    (f : skb_font_t F32 hb_font_t) (glyph_id : Z) :
  glyph_shape (F64 := F64) glyph_outline f glyph_id =
  {| contours := split_contours (glyph_outline (hb_font f) glyph_id) |}.
Proof.
  assert (H := build_shape_split (F64 := F64) (glyph_outline (hb_font f) glyph_id)).
  unfold glyph_shape, hb_font_draw_glyph. unfold build_shape in H.
  destruct (shape (fold_left draw_event _ initial_context)) as [cs].
  simpl in H. rewrite H. reflexivity.
Qed.

(** X13. The outline matters only through its contours: two outlines of a
    glyph that cut into the same contours, as when they differ in ClosePath
    events or in what precedes the first MoveTo, give the same return value,
    the same library calls and the same target. *)
Theorem outcome_depends_on_contours_only
    (outline1 outline2 : hb_font_t -> Z -> list (PathCommand F32))
    (rasterizer : option skb_rasterizer_t) (temp_alloc : option skb_temp_alloc_t)
    (glyph_id : Z) (f : skb_font_t F32 hb_font_t) (fs ox oy : F32)
    (target : option skb_image_t) :
  split_contours (F64 := F64) (outline1 (hb_font f) glyph_id) =
  split_contours (outline2 (hb_font f) glyph_id) ->
  skb_rasterizer_draw_msdf_glyph outline1 normalize edgeColoringSimple generateMSDF
    rasterizer temp_alloc glyph_id (Some f) fs ox oy target =
  skb_rasterizer_draw_msdf_glyph outline2 normalize edgeColoringSimple generateMSDF
    rasterizer temp_alloc glyph_id (Some f) fs ox oy target.
Proof.
  intros Hsplit.
  assert (Hshape : glyph_shape (F64 := F64) outline1 f glyph_id =
                   glyph_shape outline2 f glyph_id)
    by (rewrite !glyph_shape_split, Hsplit; reflexivity).
  unfold skb_rasterizer_draw_msdf_glyph. unfold glyph_shape in Hshape.
  destruct target as [t|]; [|reflexivity].
  destruct (negb (bpp t =? 3)); [reflexivity|].
  rewrite Hshape. reflexivity.
Qed.

End OutlineDependence.

(** ** The properties of the whole file on the fixture *)

Lemma close_path_and_leading_events_ignored_witness :
  forallb (fun c => negb (is_MoveTo c)) [LineTo Fixture.one Fixture.one; ClosePath]
    = true /\
  build_shape (F64 := IEEE.double)
    ([LineTo Fixture.one Fixture.one; ClosePath] ++ Fixture.outline tt 2) =
  build_shape (Fixture.outline tt 2).
Proof.
  assert (Hpre : forallb (fun c => negb (is_MoveTo c))
                   [LineTo Fixture.one Fixture.one; ClosePath] = true)
    by reflexivity.
  split; [exact Hpre|].
  exact (proj2 (close_path_and_leading_events_ignored (F64 := IEEE.double)
                  (Fixture.outline tt 2)) _ Hpre).
Defined.

Lemma generation_branch_buffer_witness :
  bpp (Fixture.image 2 2 8) = 3 /\
  contours (glyph_shape Fixture.outline Fixture.font 2) <> [] /\
  rows_disjoint (Fixture.image 2 2 8) /\
  0 < width (Fixture.image 2 2 8) /\
  exists t', target_after (Fixture.rasterize 2 (Fixture.image 2 2 8)) = Some t' /\
             buffer t' 13 = 255 /\ buffer t' 6 = 170 /\ buffer t' 16 = 170.
Proof.
  assert (Hb : bpp (Fixture.image 2 2 8) = 3) by reflexivity.
  assert (Hne : contours (glyph_shape Fixture.outline Fixture.font 2) <> [])
    by (vm_compute; discriminate).
  assert (Hd : rows_disjoint (Fixture.image 2 2 8))
    by (unfold rows_disjoint, row_stride_of, INT_MAX; simpl; lia).
  assert (Hw : 0 < width (Fixture.image 2 2 8)) by (simpl; lia).
  split; [exact Hb|]. split; [exact Hne|]. split; [exact Hd|]. split; [exact Hw|].
  destruct (generation_branch_buffer (skb_rasterizer_t := unit)
              (skb_temp_alloc_t := unit)
              Fixture.outline Fixture.normalize Fixture.edgeColoringSimple
              Fixture.generateMSDF None None 2 Fixture.font (IEEE.lit32 16 0)
              Fixture.zero Fixture.zero (Fixture.image 2 2 8) Hb Hne Hd Hw
              ltac:(simpl; lia))
    as (t' & Ht' & Hform & Hout).
  exists t'. split; [exact Ht'|]. split; [|split].
  - exact (eq_trans (Hform 13) eq_refl).
  - exact (eq_trans (Hform 6) eq_refl).
  - refine (eq_trans (Hout 16 (or_intror _)) eq_refl).
    unfold row_stride_of. simpl. lia.
Defined.

Lemma packed_target_is_filled_contiguously_witness :
  bpp (Fixture.image 2 2 0) = 3 /\
  contours (glyph_shape Fixture.outline Fixture.font 2) <> [] /\
  (stride_bytes (Fixture.image 2 2 0) <= 0 \/
   stride_bytes (Fixture.image 2 2 0) = 3 * width (Fixture.image 2 2 0)) /\
  exists t', target_after (Fixture.rasterize 2 (Fixture.image 2 2 0)) = Some t' /\
             buffer t' 11 = 255 /\ buffer t' 12 = 170.
Proof.
  assert (Hb : bpp (Fixture.image 2 2 0) = 3) by reflexivity.
  assert (Hne : contours (glyph_shape Fixture.outline Fixture.font 2) <> [])
    by (vm_compute; discriminate).
  assert (Hs : stride_bytes (Fixture.image 2 2 0) <= 0 \/
               stride_bytes (Fixture.image 2 2 0) = 3 * width (Fixture.image 2 2 0))
    by (left; simpl; lia).
  split; [exact Hb|]. split; [exact Hne|]. split; [exact Hs|].
  destruct (packed_target_is_filled_contiguously (skb_rasterizer_t := unit)
              (skb_temp_alloc_t := unit)
              Fixture.outline Fixture.normalize Fixture.edgeColoringSimple
              Fixture.generateMSDF None None 2 Fixture.font (IEEE.lit32 16 0)
              Fixture.zero Fixture.zero (Fixture.image 2 2 0) Hb Hne Hs
              ltac:(simpl; lia) ltac:(simpl; lia) ltac:(unfold INT_MAX; simpl; lia))
    as (t' & Ht' & Hform).
  exists t'. split; [exact Ht'|]. split.
  - exact (eq_trans (Hform 11) eq_refl).
  - exact (eq_trans (Hform 12) eq_refl).
Defined.

Lemma empty_target_is_left_unchanged_witness :
  contours (glyph_shape Fixture.outline Fixture.font 2) <> [] /\
  (width (Fixture.image 0 2 0) = 0 \/ height (Fixture.image 0 2 0) = 0) /\
  returned (Fixture.rasterize 2 (Fixture.image 0 2 0)) = true /\
  (exists t', target_after (Fixture.rasterize 2 (Fixture.image 0 2 0)) = Some t' /\
              forall a, buffer t' a = 170) /\
  contours (glyph_shape Fixture.outline Fixture.font 0) = [] /\
  (width (Fixture.image 2 0 8) = 0 \/ height (Fixture.image 2 0 8) = 0) /\
  returned (Fixture.rasterize 0 (Fixture.image 2 0 8)) = true /\
  (exists t', target_after (Fixture.rasterize 0 (Fixture.image 2 0 8)) = Some t' /\
              forall a, buffer t' a = 170).
Proof.
  assert (Hne : contours (glyph_shape Fixture.outline Fixture.font 2) <> [])
    by (vm_compute; discriminate).
  assert (Hd1 : width (Fixture.image 0 2 0) = 0 \/ height (Fixture.image 0 2 0) = 0)
    by (left; reflexivity).
  assert (He : contours (glyph_shape Fixture.outline Fixture.font 0) = [])
    by reflexivity.
  assert (Hd2 : width (Fixture.image 2 0 8) = 0 \/ height (Fixture.image 2 0 8) = 0)
    by (right; reflexivity).
  destruct (proj1 (empty_target_is_left_unchanged (skb_rasterizer_t := unit)
                     (skb_temp_alloc_t := unit)
                     Fixture.outline Fixture.normalize Fixture.edgeColoringSimple
                     Fixture.generateMSDF None None 2 Fixture.font (IEEE.lit32 16 0)
                     Fixture.zero Fixture.zero (Fixture.image 0 2 0) eq_refl) Hne Hd1)
    as (Hr1 & _ & t1 & Ht1 & Hbuf1).
  destruct (proj2 (empty_target_is_left_unchanged (skb_rasterizer_t := unit)
                     (skb_temp_alloc_t := unit)
                     Fixture.outline Fixture.normalize Fixture.edgeColoringSimple
                     Fixture.generateMSDF None None 0 Fixture.font (IEEE.lit32 16 0)
                     Fixture.zero Fixture.zero (Fixture.image 2 0 8) eq_refl) He Hd2)
    as (Hr2 & t2 & Ht2 & Hbuf2).
  split; [exact Hne|]. split; [exact Hd1|]. split; [exact Hr1|].
  split; [exists t1; split; [exact Ht1 | exact Hbuf1]|].
  split; [exact He|]. split; [exact Hd2|]. split; [exact Hr2|].
  exists t2. split; [exact Ht2 | exact Hbuf2].
Defined.

Lemma library_is_called_on_non_empty_shapes_only_witness :
  library_calls (Fixture.rasterize 2 (Fixture.image 2 2 8)) <> [] /\
  returned (Fixture.rasterize 2 (Fixture.image 2 2 8)) = true /\
  (call_normalize (glyph_shape Fixture.outline Fixture.font 2)
     ∈ library_calls (Fixture.rasterize 2 (Fixture.image 2 2 8))) /\
  contours (glyph_shape Fixture.outline Fixture.font 2) <> [].
Proof.
  assert (Hc : library_calls (Fixture.rasterize 2 (Fixture.image 2 2 8)) <> [])
    by (vm_compute; discriminate).
  assert (Hin : call_normalize (glyph_shape Fixture.outline Fixture.font 2)
                  ∈ library_calls (Fixture.rasterize 2 (Fixture.image 2 2 8)))
    by (apply elem_of_cons; left; reflexivity).
  destruct (library_is_called_on_non_empty_shapes_only (skb_rasterizer_t := unit)
              (skb_temp_alloc_t := unit)
              Fixture.outline Fixture.normalize Fixture.edgeColoringSimple
              Fixture.generateMSDF None None 2 (Some Fixture.font) (IEEE.lit32 16 0)
              Fixture.zero Fixture.zero (Some (Fixture.image 2 2 8)))
    as (_ & Hnorm & Hret).
  split; [exact Hc|]. split; [exact (Hret Hc)|]. split; [exact Hin|].
  exact (Hnorm _ Hin).
Defined.

Lemma empty_glyph_fill_is_not_strided_witness :
  bpp (Fixture.image 1 2 4) = 3 /\
  contours (glyph_shape Fixture.outline Fixture.font 0) = [] /\
  3 * width (Fixture.image 1 2 4) < stride_bytes (Fixture.image 1 2 4) /\
  exists t', target_after (Fixture.rasterize 0 (Fixture.image 1 2 4)) = Some t' /\
             buffer t' 3 = 0 /\ buffer t' 6 = 170.
Proof.
  assert (Hb : bpp (Fixture.image 1 2 4) = 3) by reflexivity.
  assert (He : contours (glyph_shape Fixture.outline Fixture.font 0) = [])
    by reflexivity.
  assert (Hs : 3 * width (Fixture.image 1 2 4) < stride_bytes (Fixture.image 1 2 4))
    by (simpl; lia).
  split; [exact Hb|]. split; [exact He|]. split; [exact Hs|].
  exact (empty_glyph_fill_is_not_strided (skb_rasterizer_t := unit)
           (skb_temp_alloc_t := unit)
           Fixture.outline Fixture.normalize Fixture.edgeColoringSimple
           Fixture.generateMSDF None None 0 Fixture.font (IEEE.lit32 16 0)
           Fixture.zero Fixture.zero (Fixture.image 1 2 4) Hb He
           ltac:(simpl; lia) ltac:(simpl; lia) Hs ltac:(unfold INT_MAX; simpl; lia)).
Defined.

Lemma binary32_quantization_saturates_witness :
  valid_binary IEEE.prec32 IEEE.emax32 (IEEE.lit32 3 0) = true /\
  SFleb (f32_lit 1 0) (IEEE.lit32 3 0) = true /\
  quantize (IEEE.lit32 3 0) = 255 /\
  valid_binary IEEE.prec32 IEEE.emax32 (IEEE.lit32 (-5) (-2)) = true /\
  SFleb (IEEE.lit32 (-5) (-2)) (f32_lit (-1) 0) = true /\
  quantize (IEEE.lit32 (-5) (-2)) = 0.
Proof.
  assert (Hv1 : valid_binary IEEE.prec32 IEEE.emax32 (IEEE.lit32 3 0) = true)
    by reflexivity.
  assert (Hle1 : SFleb (f32_lit 1 0) (IEEE.lit32 3 0) = true) by reflexivity.
  assert (Hv2 : valid_binary IEEE.prec32 IEEE.emax32 (IEEE.lit32 (-5) (-2)) = true)
    by reflexivity.
  assert (Hle2 : SFleb (IEEE.lit32 (-5) (-2)) (f32_lit (-1) 0) = true) by reflexivity.
  split; [exact Hv1|]. split; [exact Hle1|].
  split; [exact (proj2 (binary32_quantization_saturates _ Hv1) Hle1)|].
  split; [exact Hv2|]. split; [exact Hle2|].
  exact (proj1 (binary32_quantization_saturates _ Hv2) Hle2).
Defined.

Lemma font_size_zero_or_nan_is_rasterized_witness :
  bpp (Fixture.image 2 2 8) = 3 /\
  contours (glyph_shape Fixture.outline Fixture.font 2) <> [] /\
  upem_scale Fixture.font = S754_finite false 8388608 (-33) /\
  returned
    (skb_rasterizer_draw_msdf_glyph (skb_rasterizer_t := unit)
       (skb_temp_alloc_t := unit)
       Fixture.outline Fixture.normalize Fixture.edgeColoringSimple
       Fixture.generateMSDF None None 2 (Some Fixture.font) (S754_zero false)
       Fixture.zero Fixture.zero (Some (Fixture.image 2 2 8))) = true /\
  returned
    (skb_rasterizer_draw_msdf_glyph (skb_rasterizer_t := unit)
       (skb_temp_alloc_t := unit)
       Fixture.outline Fixture.normalize Fixture.edgeColoringSimple
       Fixture.generateMSDF None None 2 (Some Fixture.font) S754_nan
       Fixture.zero Fixture.zero (Some (Fixture.image 2 2 8))) = true.
Proof.
  assert (Hb : bpp (Fixture.image 2 2 8) = 3) by reflexivity.
  assert (Hne : contours (glyph_shape Fixture.outline Fixture.font 2) <> [])
    by (vm_compute; discriminate).
  assert (Hup : upem_scale Fixture.font = S754_finite false 8388608 (-33))
    by reflexivity.
  destruct (font_size_zero_or_nan_is_rasterized (skb_rasterizer_t := unit)
              (skb_temp_alloc_t := unit)
              Fixture.outline Fixture.normalize Fixture.edgeColoringSimple
              Fixture.generateMSDF None None 2 Fixture.font
              Fixture.zero Fixture.zero (Fixture.image 2 2 8) Hb Hne)
    as (Hzero & Hnan).
  split; [exact Hb|]. split; [exact Hne|]. split; [exact Hup|].
  split; [exact (proj1 (Hzero false _ _ _ Hup)) | exact (proj1 Hnan)].
Defined.

Lemma outcome_depends_on_contours_only_witness :
  let bare := fun (hb : unit) (glyph_id : Z) =>
    List.filter (fun c => negb (is_ClosePath c)) (Fixture.outline hb glyph_id) in
  split_contours (F64 := IEEE.double) (Fixture.outline (hb_font Fixture.font) 2) =
    split_contours (bare (hb_font Fixture.font) 2) /\
  Fixture.rasterize 2 (Fixture.image 2 2 8) =
  skb_rasterizer_draw_msdf_glyph (skb_rasterizer_t := unit) (skb_temp_alloc_t := unit)
    bare Fixture.normalize Fixture.edgeColoringSimple Fixture.generateMSDF
    None None 2 (Some Fixture.font) (IEEE.lit32 16 0) Fixture.zero Fixture.zero
    (Some (Fixture.image 2 2 8)).
Proof.
  cbv zeta.
  set (bare := fun (hb : unit) (glyph_id : Z) =>
    List.filter (fun c => negb (is_ClosePath c)) (Fixture.outline hb glyph_id)).
  assert (Hs : split_contours (F64 := IEEE.double)
                 (Fixture.outline (hb_font Fixture.font) 2) =
               split_contours (bare (hb_font Fixture.font) 2)) by reflexivity.
  split; [exact Hs|].
  exact (outcome_depends_on_contours_only (skb_rasterizer_t := unit)
           (skb_temp_alloc_t := unit)
           Fixture.normalize Fixture.edgeColoringSimple Fixture.generateMSDF
           Fixture.outline bare None None 2 Fixture.font (IEEE.lit32 16 0)
           Fixture.zero Fixture.zero (Some (Fixture.image 2 2 8)) Hs).
Defined.
